(** * Hooks: middleware registration, hook contexts and object hooks

    A shallow embedding of [base.ts] and [object.ts] of the hooks package,
    together with a model of the middleware composer those files rely on. *)

From Stdlib Require Import ZArith Lia.
From stdpp Require Import base option list strings gmap.

Local Open Scope string_scope.
Local Open Scope list_scope.

(** ** JavaScript values, arrays and thrown errors *)

Definition loc := nat.

(** Primitive values are carried by value; arrays live in a store and are
    carried by reference, so that two names of one array alias. *)
Inductive value :=
| VUndefined
| VNull
| VBool (b : bool)
| VNum (n : Z)
| VStr (s : string)
| VArr (a : loc)
| VObj (id : nat)
| VFun (id : nat).

#[global] Instance value_eq_dec : EqDecision value.
Proof. solve_decision. Defined.

(** [if (v)] *)
Definition truthy (v : value) : bool :=
  match v with
  | VUndefined | VNull => false
  | VBool b => b
  | VNum n => negb (n =? 0)%Z
  | VStr s => negb (String.eqb s "")
  | VArr _ | VObj _ | VFun _ => true
  end.

(** [v === undefined] *)
Definition is_undefined (v : value) : bool :=
  match v with VUndefined => true | _ => false end.

(** [typeof v === 'function'] *)
Definition is_function (v : value) : bool :=
  match v with VFun _ => true | _ => false end.

Record array := Array { frozen : bool; elems : list value }.

Definition heap := list array.

Inductive exn :=
| TypeError (msg : string)
| RangeError (msg : string)
| Error (msg : string)
| ProtocolViolation (msg : string).

#[global] Instance exn_eq_dec : EqDecision exn.
Proof. solve_decision. Defined.

Inductive completion (A : Type) :=
| Ok (a : A)
| Throw (e : exn).
Arguments Ok {A} a.
Arguments Throw {A} e.

(** Computations that read and extend the array store and may throw. *)
Definition M (A : Type) : Type := heap -> completion A * heap.

Definition ret {A} (a : A) : M A := fun h => (Ok a, h).
Definition throw {A} (e : exn) : M A := fun h => (Throw e, h).
Definition bind {A B} (m : M A) (k : A -> M B) : M B :=
  fun h => match m h with
           | (Ok a, h') => k a h'
           | (Throw e, h') => (Throw e, h')
           end.
Definition lift {A} (r : completion A) : M A := fun h => (r, h).

Notation "x <- m ;; k" := (bind m (fun x => k))
  (at level 100, m at next level, right associativity).

(** [args[index]]: reading an array past its end gives [undefined]. *)
Definition arr_index (h : heap) (a : loc) (index : nat) : value :=
  match h !! a with
  | Some arr => default VUndefined (elems arr !! index)
  | None => VUndefined
  end.

(** A new array is allocated at the next free location. *)
Definition alloc (arr : array) : M value :=
  fun h => (Ok (VArr (List.length h)), h ++ [arr]).

(** [arr[i] = v] from user code; a frozen array rejects the write, with a
    TypeError in strict code and silently otherwise. *)
Definition arr_set (strict : bool) (a : loc) (i : nat) (v : value) : M unit :=
  fun h => match h !! a with
           | Some arr =>
               if frozen arr
               then (if strict
                     then (Throw (TypeError "Cannot assign to read only property"), h)
                     else (Ok tt, h))
               else (Ok tt, <[a := Array false (<[i := v]> (elems arr))]> h)
           | None => (Throw (TypeError "not an array"), h)
           end.

(** [arr.push(v)]; a frozen array always throws. *)
Definition arr_push (a : loc) (v : value) : M unit :=
  fun h => match h !! a with
           | Some arr =>
               if frozen arr
               then (Throw (TypeError "Cannot add property, object is not extensible"), h)
               else (Ok tt, <[a := Array false (elems arr ++ [v])]> h)
           | None => (Throw (TypeError "not an array"), h)
           end.

(** ** The hook context ([HookContext] in base.ts)

    An attribute bag. Every own property is an ordinary data property, except
    that [withParams] may turn [arguments] into an accessor with a getter and
    no setter; [args_getter] holds that accessor. The fields the class
    declares ([result], [method], [self], [arguments]) have no initialiser
    and create no property. The prototype of a context is the one
    [new HookContext] gives it. *)

(** The accessor [withParams] defines: the parameter names its getter closes
    over, and whether the property is configurable. [Object.defineProperty]
    keeps the attributes of a property that exists already, so the accessor
    is configurable when it replaces an ordinary [arguments] property, and
    not configurable when it is created. *)
Record accessor := Accessor {
  getter_params : list string;
  getter_configurable : bool
}.

Record HookContext := Ctx {
  fields : gmap string value;
  args_getter : option accessor
}.

(** [name === 'arguments'] *)
Definition names_arguments (name : string) : bool := String.eqb name "arguments".
Arguments names_arguments : simpl never.

(** [name === '__proto__'] *)
Definition names_proto (name : string) : bool := String.eqb name "__proto__".
Arguments names_proto : simpl never.

(** The methods every context inherits: [constructor] from
    [HookContext.prototype] and from [Object.prototype], the others from
    [Object.prototype]. *)
Definition inherited_methods : list string :=
  ["constructor"; "hasOwnProperty"; "isPrototypeOf"; "propertyIsEnumerable";
   "toLocaleString"; "toString"; "valueOf"; "__defineGetter__";
   "__defineSetter__"; "__lookupGetter__"; "__lookupSetter__"].

Fixpoint position_of (name : string) (names : list string) (n : nat) : option nat :=
  match names with
  | [] => None
  | x :: rest => if String.eqb x name then Some n else position_of name rest (S n)
  end.

(** What a read finds up the prototype chain when the context has no own
    property of that name: the prototype itself for [__proto__], a built-in
    function for an inherited method, and nothing otherwise. *)
Definition inherited (name : string) : value :=
  if names_proto name then VObj 0
  else match position_of name inherited_methods 1000 with
       | Some n => VFun n
       | None => VUndefined
       end.

(** [context[name]] for a name that is no accessor: the own property, or
    else what the prototype chain has. *)
Definition field (name : string) (c : HookContext) : value :=
  match fields c !! name with
  | Some v => v
  | None => inherited name
  end.

(** [context[name]]. The getter maps its parameter names to the current
    fields and freezes the fresh array; a parameter called [arguments] makes
    the getter call itself without end. *)
Definition ctx_get (name : string) (c : HookContext) : M value :=
  if names_arguments name then
    match args_getter c with
    | Some a =>
        if existsb names_arguments (getter_params a)
        then throw (RangeError "Maximum call stack size exceeded")
        else alloc (Array true (map (fun p => field p c) (getter_params a)))
    | None => ret (field name c)
    end
  else ret (field name c).

(** [context[name] = v]. Assigning the getter-only accessor throws in strict
    code and does nothing otherwise. Assigning [__proto__] on a context that
    has no own property of that name goes to the setter inherited from
    [Object.prototype] and stores no property; that setter replaces the
    prototype when it is given an object or null, and the prototype is not
    part of a [HookContext] here. *)
Definition ctx_set (strict : bool) (name : string) (v : value)
    (c : HookContext) : completion HookContext :=
  if names_arguments name && bool_decide (args_getter c ≠ None) then
    if strict
    then Throw (TypeError "Cannot set property arguments which has only a getter")
    else Ok c
  else if names_proto name && bool_decide (fields c !! name = None) then Ok c
  else Ok (Ctx (<[name := v]> (fields c)) (args_getter c)).

(** [Object.defineProperty(context, 'arguments', { get })]: an ordinary
    [arguments] property becomes a configurable accessor, a missing one is
    created as an accessor that is not configurable, a configurable accessor
    gets the new getter, and one that is not configurable cannot be
    redefined. *)
Definition define_arguments_getter (params : list string)
    (c : HookContext) : completion HookContext :=
  match args_getter c with
  | Some a =>
      if getter_configurable a
      then Ok (Ctx (fields c) (Some (Accessor params true)))
      else Throw (TypeError "Cannot redefine property: arguments")
  | None =>
      Ok (Ctx (delete "arguments" (fields c))
              (Some (Accessor params (bool_decide (fields c !! "arguments" ≠ None)))))
  end.

(** ** Middleware *)

(** Modelled from the spec: the [Middleware] type of compose.ts, which lies
    outside this development. A middleware is a unit of behaviour that
    receives the context and [proceed]; its body is a sequence of steps that
    may log an observable event, update the data fields of the shared
    context, await some other asynchronous operation, await [proceed], throw,
    branch on the context, or wrap steps in a try/catch scope. *)
Inductive Middleware :=
| Done
| Emit (label : string) (k : Middleware)
| Update (f : gmap string value -> gmap string value) (k : Middleware)
| Await (k : Middleware)
| Proceed (k : Middleware)
| Raise (e : exn)
| Branch (c : HookContext -> bool) (k1 k2 : Middleware)
| TryCatch (body : Middleware) (handler : exn -> Middleware) (k : Middleware).

(** ** base.ts: registration of middleware *)

(** What [target[HOOKS]] can see of an object or function: its own [HOOKS]
    slot and its prototype chain. *)
Inductive target :=
| Root (own_hooks : option (list Middleware))
| Inherits (own_hooks : option (list Middleware)) (proto : target).

(** [target[HOOKS]], a property read up the prototype chain. *)
Fixpoint HOOKS (t : target) : option (list Middleware) :=
  match t with
  | Root own => own
  | Inherits (Some mw) _ => Some mw
  | Inherits None p => HOOKS p
  end.

(** [target[HOOKS] = mw], which writes the own slot. *)
Definition set_HOOKS (t : target) (mw : list Middleware) : target :=
  match t with
  | Root _ => Root (Some mw)
  | Inherits _ p => Inherits (Some mw) p
  end.

Definition registerMiddleware (t : target) (middleware : list Middleware) : target :=
  let current := default [] (HOOKS t) in
  set_HOOKS t (current ++ middleware).

(** [(target && target[HOOKS]) || []]; a falsy operand is [None]. *)
Definition getMiddleware (t : option target) : list Middleware :=
  match t with
  | Some t => default [] (HOOKS t)
  | None => []
  end.

Definition ContextUpdater : Type :=
  value -> value -> loc -> HookContext -> M HookContext.

Definition MiddlewareCollector : Type :=
  option target -> option target -> loc -> list Middleware.

Definition defaultCollectMiddleware : MiddlewareCollector :=
  fun self fn _args => getMiddleware self ++ getMiddleware fn.

(** ** base.ts: context updaters *)

(** [params.forEach((name, index) => { context[name] = args[index]; })],
    started at position [index]. The module is strict code. *)
Fixpoint forEach_param (params : list string) (index : nat) (h : heap)
    (args : loc) (context : HookContext) : completion HookContext :=
  match params with
  | [] => Ok context
  | name :: rest =>
      match ctx_set true name (arr_index h args index) context with
      | Ok context' => forEach_param rest (S index) h args context'
      | Throw e => Throw e
      end
  end.

Definition withParams (params : list string) : ContextUpdater :=
  fun self _fn args context h =>
    (c1 <- lift (forEach_param params 0 h args context) ;;
     c2 <- lift (if (0 <? List.length params)%nat
                 then define_arguments_getter params c1
                 else ctx_set true "arguments" (VArr args) c1) ;;
     c3 <- lift (if truthy self then ctx_set true "self" self c2 else Ok c2) ;;
     ret c3) h.

(** [defaults[key]] *)
Fixpoint prop_of (o : list (string * value)) (key : string) : value :=
  match o with
  | [] => VUndefined
  | (k, v) :: rest => if String.eqb k key then v else prop_of rest key
  end.

(** The [for (const key of keys)] loop of [withDefaults]. *)
Fixpoint defaults_loop (defaults : list (string * value)) (keys : list string)
    (context : HookContext) : M HookContext :=
  match keys with
  | [] => ret context
  | key :: rest =>
      v <- ctx_get key context ;;
      context' <- lift (if is_undefined v
                        then ctx_set true key (prop_of defaults key) context
                        else Ok context) ;;
      defaults_loop defaults rest context'
  end.

Definition withDefaults (defaults : list (string * value)) : ContextUpdater :=
  fun _self _fn _args context =>
    let keys := map fst defaults in
    defaults_loop defaults keys context.

(** [Object.assign(context, props)] *)
Fixpoint assign_props (props : list (string * value)) (keys : list string)
    (context : HookContext) : completion HookContext :=
  match keys with
  | [] => Ok context
  | key :: rest =>
      match ctx_set true key (prop_of props key) context with
      | Ok context' => assign_props props rest context'
      | Throw e => Throw e
      end
  end.

Definition withProps (props : list (string * value)) : ContextUpdater :=
  fun _self _fn _args context =>
    lift (assign_props props (map fst props) context).

(** [new HookContext(data)]: the constructor is [Object.assign(this, data)]
    on a new object, which cannot throw there. *)
Definition new_context (data : list (string * value)) : HookContext :=
  match assign_props data (map fst data) (Ctx ∅ None) with
  | Ok context => context
  | Throw _ => Ctx ∅ None
  end.

(** ** base.ts: hook settings *)

(** The [context] entry of the settings: one updater or an array of them. *)
Inductive ContextSetting :=
| OneUpdater (u : ContextUpdater)
| UpdaterArray (us : list ContextUpdater).

(** [HookSettings]: an array of middleware, or an object whose entries may
    each be missing. *)
Inductive HookSettings :=
| MiddlewareArray (mw : list Middleware)
| Settings (middleware : option (list Middleware))
           (context : option ContextSetting)
           (collect : option MiddlewareCollector).

Record FunctionHookOptions := Options {
  middleware : list Middleware;
  context : list ContextUpdater;
  collect : MiddlewareCollector
}.

Definition normalizeOptions (opts : HookSettings) : FunctionHookOptions :=
  let '(m, c, col) := match opts with
                      | MiddlewareArray mw => (Some mw, None, None)
                      | Settings m c col => (m, c, col)
                      end in
  let middleware := default [] m in
  let context := default (OneUpdater (withParams [])) c in
  let collect := default defaultCollectMiddleware col in
  let contextUpdaters := match context with
                         | UpdaterArray us => us
                         | OneUpdater u => [u]
                         end in
  Options middleware contextUpdaters collect.

(** ** object.ts *)

(** An object as [objectHooks] sees it: its properties and its [HOOKS]
    registration. *)
Record object := Object {
  props : gmap string value;
  registration : target
}.

(** The first argument: an object, or a class, whose prototype object is
    used. A function without a [prototype] property (an arrow function),
    with which the code goes on with [undefined] and throws, is not among
    these receivers. *)
Inductive receiver :=
| OfObject (o : object)
| OfClass (prototype : object).

Definition HookMap : Type := list (string * HookSettings).

(** The second argument. *)
Inductive hooks_argument :=
| HookArray (mw : list Middleware)
| HookMapping (hooks : HookMap).

(** [hooks[method]] *)
Fixpoint settings_of (hooks : HookMap) (method : string) : option HookSettings :=
  match hooks with
  | [] => None
  | (k, v) :: rest => if String.eqb k method then Some v else settings_of rest method
  end.

(** Calling a value that is either a function or an array: only the
    function can be called. *)
Definition call_updater (callee : ContextSetting) : ContextUpdater :=
  match callee with
  | OneUpdater u => u
  | UpdaterArray _ =>
      fun _ _ _ _ => throw (TypeError "originalContext is not a function")
  end.

(** [typeof _obj === 'function' ? _obj.prototype : _obj] *)
Definition prototype_or_self (_obj : receiver) : object :=
  match _obj with
  | OfClass prototype => prototype
  | OfObject o => o
  end.

(** [obj[method]] *)
Definition property (o : object) (method : string) : value :=
  default VUndefined (props o !! method).

Section ObjectHooks.

(** [functionHooks] of function.ts, which lies outside this development:
    wrapping a function yields a value. *)
Variable functionHooks : value -> HookSettings -> value.

(** The [context] closure [objectHooks] builds for one method. The value
    read from [options.context] is the array [normalizeOptions] made. *)
Definition method_context (method : string) (options : FunctionHookOptions)
    : ContextUpdater :=
  let originalContext := UpdaterArray (context options) in
  fun self fn args context =>
    ctx <- call_updater originalContext self fn args context ;;
    ctx' <- lift (ctx_set true "method" (VStr method) ctx) ;;
    ret ctx'.

(** The callback of [Object.keys(hooks).reduce(..., obj)], folded over the
    remaining keys; [result] and [obj] are the same object. *)
Fixpoint reduce_methods (hooks : HookMap) (keys : list string)
    (result : object) : completion object :=
  match keys with
  | [] => Ok result
  | method :: rest =>
      let value := property result method in
      match settings_of hooks method with
      | None => Throw (TypeError "Cannot destructure 'options' as it is undefined.")
      | Some setting =>
          let options := normalizeOptions setting in
          let context := method_context method options in
          if negb (is_function value)
          then Throw (Error ("Can not apply hooks. '" +:+ method +:+ "' is not a function"))
          else
            let wrapped :=
              functionHooks value
                (Settings (Some (middleware options))
                          (Some (OneUpdater context))
                          (Some (collect options))) in
            reduce_methods hooks rest
              (Object (<[method := wrapped]> (props result)) (registration result))
      end
  end.

Definition objectHooks (_obj : receiver) (hooks : hooks_argument) : completion object :=
  let obj := prototype_or_self _obj in
  match hooks with
  | HookArray mw => Ok (Object (props obj) (registerMiddleware (registration obj) mw))
  | HookMapping hooks => reduce_methods hooks (map fst hooks) obj
  end.

End ObjectHooks.

(** ** The composer *)

(** Modelled from the spec: the events of one invocation of the callable
    that [compose] of compose.ts yields; compose.ts and function.ts lie
    outside this development. Besides what the middleware log, the run
    records when a middleware is entered, when a [proceed] is called, when
    the terminal function is called, and how each activation ends: that it
    returned, with the [context.result] of that moment, or that it failed,
    with the failure. The terminal function has the position after the last
    middleware. *)
Inductive event :=
| EvEmit (label : string)
| EvEnter (position : nat)
| EvProceed (position : nat)
| EvTerminal (args : list value)
| EvReturn (position : nat) (result : value)
| EvFail (position : nat) (e : exn).

#[global] Instance event_eq_dec : EqDecision event.
Proof. solve_decision. Defined.

(** One invocation: the shared context, the array store, what has been
    observed so far, the positions whose [proceed] has been called, and the
    number of suspensions. *)
Record State := St {
  st_ctx : HookContext;
  st_heap : heap;
  st_trace : list event;
  st_called : list nat;
  st_ticks : nat
}.

Inductive outcome :=
| Resolved
| Rejected (e : exn).

Definition Run : Type := State -> outcome * State.

Definition Terminal : Type := list value -> completion value.

Definition log (e : event) (s : State) : State :=
  St (st_ctx s) (st_heap s) (st_trace s ++ [e]) (st_called s) (st_ticks s).

Definition update (f : gmap string value -> gmap string value) (s : State) : State :=
  St (Ctx (f (fields (st_ctx s))) (args_getter (st_ctx s)))
     (st_heap s) (st_trace s) (st_called s) (st_ticks s).

Definition tick (s : State) : State :=
  St (st_ctx s) (st_heap s) (st_trace s) (st_called s) (S (st_ticks s)).

Definition mark_called (i : nat) (s : State) : State :=
  St (st_ctx s) (st_heap s) (st_trace s) (i :: st_called s) (st_ticks s).

Definition multiple_calls : exn := ProtocolViolation "next() called multiple times".

(** Modelled from the spec: [proceed] is unique per position; it runs what
    lies inside, and fails with a protocol violation when it is called a
    second time. *)
Definition proceed (i : nat) (inner : Run) : Run :=
  fun s =>
    let s := log (EvProceed i) s in
    if bool_decide (i ∈ st_called s)
    then (Rejected multiple_calls, s)
    else inner (mark_called i s).

(** Modelled from the spec: a protocol violation is always fatal and never
    recovered; every other failure can be caught by a try/catch scope. *)
Definition fatal (e : exn) : bool :=
  match e with
  | ProtocolViolation _ => true
  | _ => false
  end.

(** Modelled from the spec: one activation of the middleware at position
    [i]. Awaiting [proceed] suspends the middleware until the inner chain has
    settled; a failure travels up through the enclosing [proceed] calls,
    where a try/catch scope may catch it unless it is fatal. *)
Fixpoint exec (i : nat) (inner : Run) (mw : Middleware) (s : State)
    : outcome * State :=
  match mw with
  | Done => (Resolved, s)
  | Emit label k => exec i inner k (log (EvEmit label) s)
  | Update f k => exec i inner k (update f s)
  | Await k => exec i inner k (tick s)
  | Proceed k =>
      match proceed i inner s with
      | (Resolved, s') => exec i inner k s'
      | (Rejected e, s') => (Rejected e, s')
      end
  | Raise e => (Rejected e, s)
  | Branch c k1 k2 =>
      if c (st_ctx s) then exec i inner k1 s else exec i inner k2 s
  | TryCatch body handler k =>
      match exec i inner body s with
      | (Resolved, s') => exec i inner k s'
      | (Rejected e, s') =>
          if fatal e then (Rejected e, s')
          else
            match exec i inner (handler e) s' with
            | (Resolved, s'') => exec i inner k s''
            | (Rejected e', s'') => (Rejected e', s'')
            end
      end
  end.

(** The elements of [context.arguments]. *)
Definition spread (v : value) (h : heap) : list value :=
  match v with
  | VArr a => match h !! a with Some arr => elems arr | None => [] end
  | _ => []
  end.

(** [context.result = v] *)
Definition set_result (v : value) (fs : gmap string value) : gmap string value :=
  <["result" := v]> fs.

(** Modelled from the spec: the bottom of the chain. The terminal function
    gets the context's arguments, and its return value becomes
    [context.result] unless a middleware has set that already. *)
Definition invoke_terminal (T : Terminal) : Run :=
  fun s =>
    match ctx_get "arguments" (st_ctx s) (st_heap s) with
    | (Throw e, h) =>
        (Rejected e, St (st_ctx s) h (st_trace s) (st_called s) (st_ticks s))
    | (Ok v, h) =>
        let args := spread v h in
        let s := log (EvTerminal args)
                   (St (st_ctx s) h (st_trace s) (st_called s) (st_ticks s)) in
        match T args with
        | Throw e => (Rejected e, s)
        | Ok r =>
            if is_undefined (field "result" (st_ctx s))
            then (Resolved, update (set_result r) s)
            else (Resolved, s)
        end
    end.

(** Modelled from the spec: the record of how the activation at position
    [i] ended, which changes neither the outcome nor the context. *)
Definition report (i : nat) (r : outcome * State) : outcome * State :=
  match r with
  | (Resolved, s) => (Resolved, log (EvReturn i (field "result" (st_ctx s))) s)
  | (Rejected e, s) => (Rejected e, log (EvFail i e) s)
  end.

(** Modelled from the spec: the chain from position [i] on; the first
    middleware is outermost. *)
Fixpoint dispatch (i : nat) (mws : list Middleware) (T : Terminal) : Run :=
  match mws with
  | [] => fun s => report i (invoke_terminal T s)
  | mw :: rest =>
      fun s => report i (exec i (dispatch (S i) rest T) mw (log (EvEnter i) s))
  end.

(** Modelled from the spec: the composed callable, invoked on a context. *)
Definition compose (mws : list Middleware) (T : Terminal)
    (ctx : HookContext) (h : heap) : outcome * State :=
  dispatch 0 mws T (St ctx h [] [] 0).

(** Modelled from the spec: what the caller gets, [context.result] or the
    failure. *)
Definition settle (r : outcome * State) : completion value :=
  match r with
  | (Resolved, s) => Ok (field "result" (st_ctx s))
  | (Rejected e, _) => Throw e
  end.

(** The before/after events and the terminal call, without the
    bookkeeping events. *)
Definition observed (tr : list event) : list event :=
  List.filter (fun e => match e with
                       | EvEmit _ | EvTerminal _ => true
                       | _ => false
                       end) tr.

(** * Notions used in the properties *)

(** Registering several batches of middleware, one after the other. *)
Definition register_all (t : target) (batches : list (list Middleware)) : target :=
  foldl registerMiddleware t batches.

(** The getter of [arguments] can be evaluated: none of its parameters is
    itself called [arguments]. *)
Definition readable (c : HookContext) : Prop :=
  forall a, args_getter c = Some a ->
            existsb names_arguments (getter_params a) = false.

(** [context[key] === undefined] *)
Definition reads_undefined (key : string) (c : HookContext) : bool :=
  if names_arguments key && bool_decide (args_getter c ≠ None)
  then false
  else is_undefined (field key c).

(** The argument list (1, 2). *)
Definition one_two : list value := [VNum 1; VNum 2].

(** The error of [objectHooks] for a property that is no function. *)
Definition not_a_function (method : string) : exn :=
  Error ("Can not apply hooks. '" +:+ method +:+ "' is not a function").

(** [n] suspensions in a row. *)
Fixpoint awaits (n : nat) (k : Middleware) : Middleware :=
  match n with
  | O => k
  | S n' => Await (awaits n' k)
  end.

(** A middleware with a before-section and an after-section around its one
    [await proceed()]; each section reports itself once and suspends any
    number of times before and after doing so. *)
Record section_shape := Shape {
  name : string;
  before_awaits : nat * nat;
  after_awaits : nat * nat
}.

(** What the two sections of an onion middleware log. *)
Definition before_event (sh : section_shape) : event := EvEmit (name sh +:+ "-before").
Definition after_event (sh : section_shape) : event := EvEmit (name sh +:+ "-after").

Definition onion (sh : section_shape) : Middleware :=
  awaits (fst (before_awaits sh))
    (Emit (name sh +:+ "-before")
       (awaits (snd (before_awaits sh))
          (Proceed
             (awaits (fst (after_awaits sh))
                (Emit (name sh +:+ "-after")
                   (awaits (snd (after_awaits sh)) Done)))))).

(** The state after [n] suspensions. *)
Fixpoint ticks (n : nat) (s : State) : State :=
  match n with
  | O => s
  | S n' => ticks n' (tick s)
  end.

(** No position from [i] on has had its [proceed] called. *)
Definition fresh_from (i : nat) (s : State) : Prop :=
  forall j, j ∈ st_called s -> j < i.

(** The terminal function returns, whatever its arguments. *)
Definition returns (T : Terminal) : Prop :=
  forall args, exists v, T args = Ok v.

(** A middleware whose body has no [proceed] in it. *)
Fixpoint never_proceeds (mw : Middleware) : Prop :=
  match mw with
  | Done | Raise _ => True
  | Emit _ k | Update _ k | Await k => never_proceeds k
  | Proceed _ => False
  | Branch _ k1 k2 => never_proceeds k1 /\ never_proceeds k2
  | TryCatch body handler k =>
      never_proceeds body /\ (forall e, never_proceeds (handler e)) /\ never_proceeds k
  end.

(** Events that do not come from beyond position [n]: no middleware after
    [n] is entered or ends, and the terminal function is not called. *)
Definition not_beyond (n : nat) (e : event) : Prop :=
  match e with
  | EvTerminal _ => False
  | EvEnter j | EvReturn j _ | EvFail j _ => j <= n
  | _ => True
  end.

(** Nothing beyond position [n] has run. *)
Definition stays_within (n : nat) (s : State) : Prop :=
  Forall (not_beyond n) (st_trace s).

(** Events of position [j] or further in, and events without a position. *)
Definition at_least (j : nat) (e : event) : Prop :=
  match e with
  | EvEnter k | EvProceed k | EvReturn k _ | EvFail k _ => j <= k
  | EvEmit _ | EvTerminal _ => True
  end.

(** The event of a call of the terminal function. *)
Definition is_terminal_call (e : event) : bool :=
  match e with EvTerminal _ => true | _ => false end.

(** How often the terminal function has been called. *)
Definition terminal_calls (s : State) : nat :=
  List.length (List.filter is_terminal_call (st_trace s)).

(** How often [proceed] of position [i] has been called. *)
Definition proceed_calls (i : nat) (s : State) : nat :=
  count_occ event_eq_dec (st_trace s) (EvProceed i).

(** No [proceed] has been called twice so far, and the positions marked as
    called are those whose [proceed] has been called. *)
Definition single_calls (s : State) : Prop :=
  forall i, proceed_calls i s <= 1 /\ (i ∈ st_called s <-> 0 < proceed_calls i s).

(** The outcome of a run: still no second call, or the protocol
    violation. *)
Definition single_or_violation (r : outcome * State) : Prop :=
  single_calls (snd r) \/ fst r = Rejected multiple_calls.

(** A middleware none of whose try/catch scopes has a [proceed] in its
    guarded body. *)
Fixpoint no_catch_around_proceed (mw : Middleware) : Prop :=
  match mw with
  | Done | Raise _ => True
  | Emit _ k | Update _ k | Await k | Proceed k => no_catch_around_proceed k
  | Branch _ k1 k2 => no_catch_around_proceed k1 /\ no_catch_around_proceed k2
  | TryCatch body handler k =>
      never_proceeds body
      /\ (forall e, no_catch_around_proceed (handler e))
      /\ no_catch_around_proceed k
  end.

(** The activation at position [n] has not failed so far. *)
Definition no_failure_at (n : nat) (s : State) : Prop :=
  forall e, EvFail n e ∉ st_trace s.

(** When the activation at position [n] has failed, the run so far has
    failed with the same failure. *)
Definition failure_decides (n : nat) (r : outcome * State) : Prop :=
  forall e, EvFail n e ∈ st_trace (snd r) -> fst r = Rejected e.

(** An update that leaves [context.result] as it is. *)
Definition keeps_result (f : gmap string value -> gmap string value) : Prop :=
  forall fs, f fs !! "result" = fs !! "result".

(** Code that neither throws, nor calls [proceed], nor assigns
    [context.result]. *)
Fixpoint quiet (mw : Middleware) : Prop :=
  match mw with
  | Done => True
  | Emit _ k | Await k => quiet k
  | Update f k => keeps_result f /\ quiet k
  | Proceed _ | Raise _ => False
  | Branch _ k1 k2 => quiet k1 /\ quiet k2
  | TryCatch body _ k => quiet body /\ quiet k
  end.

(** A middleware in which the code that follows a [proceed] is quiet: once
    its [proceed] has returned it neither throws, nor calls [proceed] again,
    nor assigns [context.result]. What it does before, and whether it calls
    [proceed] at all, is free; a try/catch scope either has no [proceed] in
    its body and handler, or is followed by quiet code. *)
Fixpoint quiet_after_proceed (mw : Middleware) : Prop :=
  match mw with
  | Done | Raise _ => True
  | Emit _ k | Update _ k | Await k => quiet_after_proceed k
  | Proceed k => quiet k
  | Branch _ k1 k2 => quiet_after_proceed k1 /\ quiet_after_proceed k2
  | TryCatch body handler k =>
      (never_proceeds body /\ (forall e, never_proceeds (handler e))
       /\ quiet_after_proceed k)
      \/ (quiet_after_proceed body /\ (forall e, quiet_after_proceed (handler e))
          /\ quiet k)
  end.

(** The activation at position [c] has not returned so far. *)
Definition not_returned (c : nat) (s : State) : Prop :=
  forall v, EvReturn c v ∉ st_trace s.

(** When the activation at position [c] has returned, leaving the result
    [v], the run so far has resolved and [context.result] is still [v]. *)
Definition return_decides (c : nat) (r : outcome * State) : Prop :=
  forall v, EvReturn c v ∈ st_trace (snd r) ->
            fst r = Resolved /\ field "result" (st_ctx (snd r)) = v.

(** Every failure of the activation at position [n] so far is a fatal
    one. *)
Definition only_fatal_failures (n : nat) (s : State) : Prop :=
  forall e, EvFail n e ∈ st_trace s -> fatal e = true.

(** When the activation at position [n] has failed with a failure [e] that
    is not fatal, the run so far has resolved and [context.result] is
    [v e]. *)
Definition catch_decides (n : nat) (v : exn -> value) (r : outcome * State) : Prop :=
  forall e, EvFail n e ∈ st_trace (snd r) -> fatal e = false ->
            fst r = Resolved /\ field "result" (st_ctx (snd r)) = v e.

(** A middleware that awaits [proceed] in a try/catch scope and, when that
    fails with [e], sets [context.result] to [v e]. *)
Definition catcher (v : exn -> value) : Middleware :=
  TryCatch (Proceed Done) (fun e => Update (set_result (v e)) Done) Done.

(** The context as the loop of [withDefaults] leaves it: the context is
    updated in place, so what was assigned stays assigned when a later read
    throws. *)
Fixpoint defaults_progress (defaults : list (string * value)) (keys : list string)
    (context : HookContext) (h : heap) : HookContext :=
  match keys with
  | [] => context
  | key :: rest =>
      match ctx_get key context h with
      | (Throw _, _) => context
      | (Ok v, h') =>
          match (if is_undefined v
                 then ctx_set true key (prop_of defaults key) context
                 else Ok context) with
          | Ok context' => defaults_progress defaults rest context' h'
          | Throw _ => context
          end
      end
  end.

(** Concrete inputs. *)
Definition empty_context : HookContext := new_context [].

Definition returns_seven : Terminal := fun _ => Ok (VNum 7).

Definition throws_E : Terminal := fun _ => Throw (Error "E").

(** ** base.ts: registration of context updaters *)

(** An object or function with both of its registration slots, [HOOKS] and
    [CONTEXT], and its prototype chain. *)
Inductive registrations :=
| Own (own_hooks : option (list Middleware))
      (own_context : option (list ContextUpdater))
| Derived (own_hooks : option (list Middleware))
          (own_context : option (list ContextUpdater))
          (proto : registrations).

(** The [HOOKS] side of such an object, as [registerMiddleware] and
    [getMiddleware] see it. *)
Fixpoint hooks_view (t : registrations) : target :=
  match t with
  | Own hs _ => Root hs
  | Derived hs _ p => Inherits hs (hooks_view p)
  end.

(** [target[CONTEXT]], a property read up the prototype chain. *)
Fixpoint CONTEXT (t : registrations) : option (list ContextUpdater) :=
  match t with
  | Own _ own => own
  | Derived _ (Some us) _ => Some us
  | Derived _ None p => CONTEXT p
  end.

(** [target[CONTEXT] = us], which writes the own slot. *)
Definition set_CONTEXT (t : registrations) (us : list ContextUpdater) : registrations :=
  match t with
  | Own hs _ => Own hs (Some us)
  | Derived hs _ p => Derived hs (Some us) p
  end.

Definition registerContextUpdater (t : registrations)
    (updaters : list ContextUpdater) : registrations :=
  let current := default [] (CONTEXT t) in
  set_CONTEXT t (current ++ updaters).

(** [(target && target[CONTEXT]) || []]; a falsy operand is [None]. *)
Definition getContextUpdater (t : option registrations) : list ContextUpdater :=
  match t with
  | Some t => default [] (CONTEXT t)
  | None => []
  end.

Definition collectContextUpdaters (self fn : option registrations) (_args : loc)
    : list ContextUpdater :=
  getContextUpdater self ++ getContextUpdater fn.

(** ** Further notions used in the properties *)

(** Registering several batches of context updaters, one after the other. *)
Definition register_all_updaters (t : registrations)
    (batches : list (list ContextUpdater)) : registrations :=
  foldl registerContextUpdater t batches.

(** The first [n] call arguments, with [undefined] for the missing ones. *)
Definition positional (h : heap) (args : loc) (n : nat) : list value :=
  map (arr_index h args) (seq 0 n).

(** Normalized options written back as a settings object. *)
Definition as_settings (o : FunctionHookOptions) : HookSettings :=
  Settings (Some (middleware o)) (Some (UpdaterArray (context o))) (Some (collect o)).

(** What [objectHooks] stores under [method]: the wrapped original. *)
Definition wrapped_method (functionHooks : value -> HookSettings -> value)
    (setting : HookSettings) (method : string) (original : value) : value :=
  let options := normalizeOptions setting in
  functionHooks original
    (Settings (Some (middleware options))
              (Some (OneUpdater (method_context method options)))
              (Some (collect options))).

(** Every method named in the hook map is a function on the object. *)
Definition all_functions (hooks : HookMap) (o : object) : Prop :=
  forall method, method ∈ map fst hooks -> is_function (property o method) = true.

(** * Properties *)

(** ** Registration and collection *)

Lemma HOOKS_set_HOOKS (t : target) (mw : list Middleware) :
  HOOKS (set_HOOKS t mw) = Some mw.
Proof. destruct t; reflexivity. Qed.

Lemma getMiddleware_registerMiddleware (t : target) (mw : list Middleware) :
  getMiddleware (Some (registerMiddleware t mw)) = getMiddleware (Some t) ++ mw.
Proof.
  unfold registerMiddleware, getMiddleware.
  rewrite HOOKS_set_HOOKS. reflexivity.
Qed.

Lemma getMiddleware_register_all (batches : list (list Middleware)) :
  forall t : target,
    getMiddleware (Some (register_all t batches))
    = getMiddleware (Some t) ++ concat batches.
Proof.
  induction batches as [|b bs IH]; intros t.
  - simpl. rewrite app_nil_r. reflexivity.
  - unfold register_all in *. simpl foldl. rewrite IH.
    rewrite getMiddleware_registerMiddleware.
    simpl concat. rewrite app_assoc. reflexivity.
Qed.

(** An instance sees what is registered on its prototype. *)
Lemma getMiddleware_inherited (p : target) :
  getMiddleware (Some (Inherits None p)) = getMiddleware (Some p).
Proof. reflexivity. Qed.

(** C7: the default collector returns the middleware registered on the
    receiver followed by the middleware registered on the callable, each in
    registration order, since every registration appends to what is there. *)
Theorem defaultCollectMiddleware_order
    (self fn : target) (on_self on_fn : list (list Middleware)) (args : loc) :
  defaultCollectMiddleware
    (Some (register_all self on_self)) (Some (register_all fn on_fn)) args
  = (getMiddleware (Some self) ++ concat on_self)
    ++ (getMiddleware (Some fn) ++ concat on_fn).
Proof.
  unfold defaultCollectMiddleware.
  rewrite !getMiddleware_register_all. reflexivity.
Qed.

(** ** Defaults *)

Lemma inherited_proto (key : string) :
  names_proto key = true -> inherited key = VObj 0.
Proof. intros H. unfold inherited. rewrite H. reflexivity. Qed.

(** A read that succeeds yields [undefined] exactly when [reads_undefined]
    says so. *)
Lemma ctx_get_value (key : string) (c : HookContext) (h h' : heap) (v : value) :
  ctx_get key c h = (Ok v, h') -> is_undefined v = reads_undefined key c.
Proof.
  unfold ctx_get, reads_undefined.
  destruct (names_arguments key) eqn:Hk; cbn [andb].
  - destruct (args_getter c) as [a|] eqn:Hg.
    + rewrite bool_decide_eq_true_2 by discriminate.
      destruct (existsb names_arguments (getter_params a)).
      * unfold throw. intros H. discriminate H.
      * unfold alloc. intros H. injection H as <- _. reflexivity.
    + rewrite bool_decide_eq_false_2 by (intros Hn; apply Hn; reflexivity).
      unfold ret. intros H. injection H as <- _. reflexivity.
  - unfold ret. intros H. injection H as <- _. reflexivity.
Qed.

(** A read throws only when the accessor cannot be evaluated. *)
Lemma ctx_get_throws (key : string) (c : HookContext) (h h' : heap) (e : exn) :
  ctx_get key c h = (Throw e, h') ->
  e = RangeError "Maximum call stack size exceeded"
  /\ names_arguments key = true /\ ~ readable c.
Proof.
  unfold ctx_get.
  destruct (names_arguments key) eqn:Hk; [|unfold ret; intros H; discriminate H].
  destruct (args_getter c) as [a|] eqn:Hg; [|unfold ret; intros H; discriminate H].
  destruct (existsb names_arguments (getter_params a)) eqn:Hex.
  - unfold throw. intros H. injection H as <- _.
    split; [reflexivity|]. split; [reflexivity|].
    intros Hr. rewrite (Hr a Hg) in Hex. discriminate Hex.
  - unfold alloc. intros H. discriminate H.
Qed.

Lemma ctx_get_reads_undefined (key : string) (c : HookContext) (h : heap) :
  readable c ->
  exists v h', ctx_get key c h = (Ok v, h') /\ is_undefined v = reads_undefined key c.
Proof.
  intros Hr. destruct (ctx_get key c h) as [[v|e] h'] eqn:Hget.
  - exists v, h'. split; [reflexivity|]. exact (ctx_get_value key c h h' v Hget).
  - destruct (ctx_get_throws key c h h' e Hget) as (_ & _ & Hn). contradiction.
Qed.

Lemma ctx_set_when_undefined (key : string) (v : value) (c : HookContext) :
  reads_undefined key c = true ->
  ctx_set true key v c = Ok (Ctx (<[key := v]> (fields c)) (args_getter c)).
Proof.
  unfold reads_undefined, ctx_set.
  destruct (names_arguments key && bool_decide (args_getter c ≠ None));
    [discriminate|].
  intros Hu.
  destruct (names_proto key) eqn:Hp; cbn [andb]; [|reflexivity].
  destruct (fields c !! key) as [w|] eqn:Hf.
  - rewrite bool_decide_eq_false_2 by discriminate. reflexivity.
  - unfold field in Hu. rewrite Hf, (inherited_proto key Hp) in Hu. discriminate Hu.
Qed.

Lemma reads_undefined_insert (key k : string) (v : value) (c : HookContext) :
  key <> k ->
  reads_undefined key (Ctx (<[k := v]> (fields c)) (args_getter c))
  = reads_undefined key c.
Proof.
  intros Hne. unfold reads_undefined, field. simpl.
  rewrite lookup_insert_ne by congruence. reflexivity.
Qed.

(** One turn of the loop of [withDefaults], when the read succeeds. *)
Lemma defaults_step (defaults : list (string * value)) (k : string)
    (c : HookContext) (v : value) :
  is_undefined v = reads_undefined k c ->
  exists c1,
    (if is_undefined v then ctx_set true k (prop_of defaults k) c else Ok c) = Ok c1
    /\ args_getter c1 = args_getter c
    /\ (forall key, key <> k ->
                    fields c1 !! key = fields c !! key
                    /\ reads_undefined key c1 = reads_undefined key c)
    /\ fields c1 !! k
       = if reads_undefined k c then Some (prop_of defaults k) else fields c !! k.
Proof.
  intros Hv. rewrite Hv. destruct (reads_undefined k c) eqn:Hu.
  - rewrite (ctx_set_when_undefined _ _ _ Hu). eexists. split; [reflexivity|].
    split; [reflexivity|]. split.
    + intros key Hne. split.
      * cbn [fields]. apply lookup_insert_ne. congruence.
      * apply reads_undefined_insert. exact Hne.
    + cbn [fields]. apply lookup_insert_eq.
  - exists c. repeat split.
Qed.

Lemma defaults_loop_ok (defaults : list (string * value)) (keys : list string) :
  forall (c c' : HookContext) (h h' : heap),
    defaults_loop defaults keys c h = (Ok c', h') ->
    defaults_progress defaults keys c h = c'
    /\ args_getter c' = args_getter c
    /\ forall key : string,
         fields c' !! key
         = if bool_decide (key ∈ keys) && reads_undefined key c
           then Some (prop_of defaults key)
           else fields c !! key.
Proof.
  induction keys as [|k rest IH]; intros c c' h h' Hrun;
    cbn [defaults_loop defaults_progress] in *.
  - unfold ret in Hrun. injection Hrun as <- <-.
    split; [reflexivity|]. split; [reflexivity|]. intros key.
    rewrite bool_decide_eq_false_2 by apply not_elem_of_nil. reflexivity.
  - unfold bind in Hrun.
    destruct (ctx_get k c h) as [[v|e] h1] eqn:Hget; [|discriminate Hrun].
    destruct (defaults_step defaults k c v (ctx_get_value k c h h1 v Hget))
      as (c1 & Hstep & Hg1 & Hother & Hk).
    unfold lift in Hrun. rewrite Hstep in *.
    destruct (IH c1 c' h1 h' Hrun) as (Hprog & Hg & Hf).
    split; [exact Hprog|]. split; [congruence|].
    intros key. rewrite Hf.
    destruct (decide (key = k)) as [->|Hne].
    + rewrite (bool_decide_eq_true_2 (k ∈ k :: rest))
        by (apply elem_of_cons; left; reflexivity).
      cbn [andb]. rewrite Hk.
      destruct (reads_undefined k c) eqn:Hu.
      * destruct (bool_decide (k ∈ rest) && reads_undefined k c1); reflexivity.
      * assert (Hu1 : reads_undefined k c1 = false).
        { rewrite <- Hu. unfold reads_undefined, field. rewrite Hg1, Hk. reflexivity. }
        rewrite Hu1, andb_false_r. reflexivity.
    + destruct (Hother key Hne) as [-> ->].
      rewrite (bool_decide_ext (key ∈ k :: rest) (key ∈ rest)); [reflexivity|].
      rewrite elem_of_cons. intuition congruence.
Qed.

Lemma defaults_loop_throws (defaults : list (string * value)) (keys : list string) :
  forall (c : HookContext) (h h' : heap) (e : exn),
    defaults_loop defaults keys c h = (Throw e, h') ->
    e = RangeError "Maximum call stack size exceeded"
    /\ ~ readable c /\ "arguments" ∈ keys.
Proof.
  induction keys as [|k rest IH]; intros c h h' e Hrun; cbn [defaults_loop] in Hrun.
  - discriminate Hrun.
  - unfold bind in Hrun.
    destruct (ctx_get k c h) as [[v|e1] h1] eqn:Hget.
    + destruct (defaults_step defaults k c v (ctx_get_value k c h h1 v Hget))
        as (c1 & Hstep & Hg1 & _).
      unfold lift in Hrun. rewrite Hstep in Hrun.
      destruct (IH c1 h1 h' e Hrun) as (He & Hn & Hin).
      split; [exact He|]. split.
      * intros Hr. apply Hn. intros a Ha. apply Hr. rewrite <- Hg1. exact Ha.
      * apply elem_of_cons. right. exact Hin.
    + injection Hrun as <- <-.
      destruct (ctx_get_throws k c h h1 e1 Hget) as (He & Hk & Hn).
      split; [exact He|]. split; [exact Hn|].
      apply elem_of_cons. left. unfold names_arguments in Hk.
      apply String.eqb_eq in Hk. symmetry. exact Hk.
Qed.

Lemma defaults_loop_spec (defaults : list (string * value)) (keys : list string) :
  forall (c : HookContext) (h : heap),
    readable c ->
    exists c' h',
      defaults_loop defaults keys c h = (Ok c', h')
      /\ args_getter c' = args_getter c
      /\ forall key : string,
           fields c' !! key
           = if bool_decide (key ∈ keys) && reads_undefined key c
             then Some (prop_of defaults key)
             else fields c !! key.
Proof.
  intros c h Hr.
  destruct (defaults_loop defaults keys c h) as [[c'|e] h'] eqn:Hrun.
  - destruct (defaults_loop_ok defaults keys c c' h h' Hrun) as (_ & Hg & Hf).
    exists c', h'. split; [reflexivity|]. split; [exact Hg | exact Hf].
  - destruct (defaults_loop_throws defaults keys c h h' e Hrun) as (_ & Hn & _).
    contradiction.
Qed.

(** What the loop has done when it stops, whether it finished or a read
    threw: a field either is as before, or is a key of the defaults that read
    [undefined] and now holds its default. *)
Lemma defaults_progress_spec (defaults : list (string * value)) (keys : list string) :
  forall (c : HookContext) (h : heap),
    args_getter (defaults_progress defaults keys c h) = args_getter c
    /\ forall key : string,
         fields (defaults_progress defaults keys c h) !! key = fields c !! key
         \/ (key ∈ keys /\ reads_undefined key c = true
             /\ fields (defaults_progress defaults keys c h) !! key
                = Some (prop_of defaults key)).
Proof.
  induction keys as [|k rest IH]; intros c h; cbn [defaults_progress].
  - split; [reflexivity|]. intros key. left. reflexivity.
  - destruct (ctx_get k c h) as [[v|e] h1] eqn:Hget.
    2:{ split; [reflexivity|]. intros key. left. reflexivity. }
    destruct (defaults_step defaults k c v (ctx_get_value k c h h1 v Hget))
      as (c1 & Hstep & Hg1 & Hother & Hk).
    rewrite Hstep.
    destruct (IH c1 h1) as [Hg Hf].
    split; [congruence|].
    intros key. destruct (decide (key = k)) as [->|Hne].
    + destruct (reads_undefined k c) eqn:Hu.
      * right. split; [apply elem_of_cons; left; reflexivity|].
        split; [reflexivity|].
        destruct (Hf k) as [Hsame|(_ & _ & Hset)]; [|exact Hset].
        rewrite Hsame. exact Hk.
      * left. destruct (Hf k) as [Hsame|(_ & Hu1 & _)]; [congruence|].
        exfalso. revert Hu1. unfold reads_undefined, field in *.
        rewrite Hg1, Hk, Hu. discriminate.
    + destruct (Hother key Hne) as [Hf1 Hu1].
      destruct (Hf key) as [Hsame|(Hin & Hu & Hset)].
      * left. congruence.
      * right. split; [apply elem_of_cons; right; exact Hin|].
        split; [congruence | exact Hset].
Qed.

(** C9: the updater made by [withDefaults] changes a context field only when
    the field is named in the defaults and currently reads [undefined], own
    or inherited, and then sets it to its default; every field that reads as
    another value, and every field the defaults do not name, is left as it
    was. That holds of the context as the loop leaves it, also when the loop
    is cut short; when the updater returns, it returns that context and
    every such field has its default. It throws only when [arguments] is
    named in the defaults and is an accessor that cannot be read. *)
Theorem withDefaults_fills_undefined
    (defaults : list (string * value)) (self fn : value) (args : loc)
    (c : HookContext) (h : heap) :
  let after := defaults_progress defaults (map fst defaults) c h in
  args_getter after = args_getter c
  /\ (forall key : string,
        reads_undefined key c = false -> fields after !! key = fields c !! key)
  /\ (forall key : string,
        key ∉ map fst defaults -> fields after !! key = fields c !! key)
  /\ (forall key : string,
        fields after !! key <> fields c !! key ->
        fields after !! key = Some (prop_of defaults key))
  /\ match withDefaults defaults self fn args c h with
     | (Ok c', _) =>
         c' = after
         /\ forall key : string,
              key ∈ map fst defaults -> reads_undefined key c = true ->
              fields c' !! key = Some (prop_of defaults key)
     | (Throw e, _) =>
         e = RangeError "Maximum call stack size exceeded"
         /\ ~ readable c /\ "arguments" ∈ map fst defaults
     end.
Proof.
  cbn zeta.
  destruct (defaults_progress_spec defaults (map fst defaults) c h) as [Hg Hf].
  split; [exact Hg|]. split; [|split; [|split]].
  - intros key Hu. destruct (Hf key) as [Hsame|(_ & Hu' & _)]; [exact Hsame|].
    congruence.
  - intros key Hnin. destruct (Hf key) as [Hsame|(Hin & _)]; [exact Hsame|].
    contradiction.
  - intros key Hne. destruct (Hf key) as [Hsame|(_ & _ & Hset)]; [contradiction|].
    exact Hset.
  - unfold withDefaults.
    destruct (defaults_loop defaults (map fst defaults) c h) as [[c'|e] h'] eqn:Hrun.
    + destruct (defaults_loop_ok defaults _ c c' h h' Hrun) as (Hprog & _ & Hf').
      split; [symmetry; exact Hprog|].
      intros key Hin Hu. rewrite Hf', Hu.
      rewrite bool_decide_eq_true_2 by exact Hin. reflexivity.
    + exact (defaults_loop_throws defaults _ c h h' e Hrun).
Qed.

(** ** Named parameters *)

Lemma ctx_set_plain (strict : bool) (name : string) (v : value) (c : HookContext) :
  args_getter c = None ->
  names_proto name = false ->
  ctx_set strict name v c = Ok (Ctx (<[name := v]> (fields c)) None).
Proof.
  intros Hg Hp. unfold ctx_set. rewrite Hg, Hp.
  rewrite bool_decide_eq_false_2 by (intros Hn; apply Hn; reflexivity).
  rewrite andb_false_r. reflexivity.
Qed.

Lemma ctx_set_other (strict : bool) (name : string) (v : value) (c : HookContext) :
  names_arguments name = false ->
  names_proto name = false ->
  ctx_set strict name v c = Ok (Ctx (<[name := v]> (fields c)) (args_getter c)).
Proof. intros Hn Hp. unfold ctx_set. rewrite Hn, Hp. reflexivity. Qed.

(** C8: with no parameter names the updater stores the raw argument array
    itself under [arguments] (the same reference, with nothing allocated or
    frozen), sets [self] to the receiver exactly when the receiver is present
    (truthy, which is what [if (self)] tests), and touches no other field.
    The context is one whose [arguments] is an ordinary property. *)
Theorem withParams_no_names
    (self fn : value) (args : loc) (c : HookContext) (h : heap) :
  args_getter c = None ->
  exists c',
    withParams [] self fn args c h = (Ok c', h)
    /\ ctx_get "arguments" c' h = (Ok (VArr args), h)
    /\ args_getter c' = None
    /\ fields c' !! "self" = (if truthy self then Some self else fields c !! "self")
    /\ forall name : string,
         name <> "arguments" -> name <> "self" ->
         fields c' !! name = fields c !! name.
Proof.
  intros Hg. unfold withParams, bind, lift, ret. simpl forEach_param.
  change (0 <? List.length (@nil string))%nat with false. cbv iota.
  rewrite (ctx_set_plain true "arguments" _ _ Hg eq_refl).
  destruct (truthy self).
  - rewrite ctx_set_other by reflexivity. simpl.
    eexists. split; [reflexivity|]. split; [|split; [reflexivity|split]].
    + unfold ctx_get. change (names_arguments "arguments") with true.
      simpl. unfold ret, field. simpl.
      rewrite lookup_insert_ne by discriminate.
      rewrite lookup_insert_eq. reflexivity.
    + simpl. rewrite lookup_insert_eq. reflexivity.
    + intros name H1 H2. simpl.
      rewrite !lookup_insert_ne by congruence. reflexivity.
  - eexists. split; [reflexivity|]. split; [|split; [reflexivity|split]].
    + unfold ctx_get. change (names_arguments "arguments") with true.
      simpl. unfold ret, field. simpl.
      rewrite lookup_insert_eq. reflexivity.
    + simpl. rewrite lookup_insert_ne by discriminate. reflexivity.
    + intros name H1 H2. simpl.
      rewrite !lookup_insert_ne by congruence. reflexivity.
Qed.

Lemma lookup_snapshot (h : heap) (arr : array) :
  (h ++ [arr]) !! List.length h = Some arr.
Proof.
  rewrite lookup_app_r by lia. rewrite Nat.sub_diag. reflexivity.
Qed.

(** A context on which an earlier [withParams] with names has run makes a
    second one fail: the accessor cannot be redefined. *)
Lemma withParams_twice_throws :
  let h := [Array false one_two] in
  exists c0,
    withParams ["x"] VUndefined (VFun 0) 0 (new_context []) h = (Ok c0, h)
    /\ withParams ["a"; "b"] VUndefined (VFun 0) 0 c0 h
       = (Throw (TypeError "Cannot redefine property: arguments"), h).
Proof. eexists. split; reflexivity. Qed.

(** C5, for a context whose [arguments] is an ordinary property: applying
    [withParams "a" "b"] to the arguments (1, 2) gives [context.a = 1] and
    [context.b = 2]; reading [context.arguments] yields a fresh frozen array
    [1, 2] computed from the named fields at the time of reading; assigning
    [context.arguments] throws in strict code and does nothing otherwise, and
    writing into the array that was read throws or does nothing, so neither
    changes [context.a]. *)
Theorem withParams_named_round_trip
    (self fn : value) (args : loc) (c : HookContext) (h : heap) (arr : array) :
  args_getter c = None ->
  h !! args = Some arr ->
  elems arr = one_two ->
  exists c',
    withParams ["a"; "b"] self fn args c h = (Ok c', h)
    /\ field "a" c' = VNum 1
    /\ field "b" c' = VNum 2
    /\ ctx_get "arguments" c' h
       = (Ok (VArr (List.length h)), h ++ [Array true one_two])
    /\ (forall v : value,
          ctx_get "arguments" (Ctx (<["a" := v]> (fields c')) (args_getter c')) h
          = (Ok (VArr (List.length h)), h ++ [Array true [v; VNum 2]]))
    /\ (forall v : value,
          ctx_set false "arguments" v c' = Ok c'
          /\ exists e, ctx_set true "arguments" v c' = Throw e)
    /\ (forall (i : nat) (v : value),
          let h' := h ++ [Array true one_two] in
          arr_set false (List.length h) i v h' = (Ok tt, h')
          /\ (exists e, arr_set true (List.length h) i v h' = (Throw e, h'))
          /\ (exists e, arr_push (List.length h) v h' = (Throw e, h'))).
Proof.
  intros Hg Hh He.
  assert (H0 : arr_index h args 0 = VNum 1)
    by (unfold arr_index; rewrite Hh, He; reflexivity).
  assert (H1 : arr_index h args 1 = VNum 2)
    by (unfold arr_index; rewrite Hh, He; reflexivity).
  unfold withParams, bind, lift, ret. simpl forEach_param.
  rewrite H0, H1.
  change (0 <? List.length ["a"; "b"])%nat with true. cbv iota.
  unfold define_arguments_getter. simpl args_getter. rewrite Hg. simpl fields.
  set (fs := delete "arguments" (<["b" := VNum 2]> (<["a" := VNum 1]> (fields c)))).
  assert (Ha : fs !! "a" = Some (VNum 1)).
  { subst fs. rewrite lookup_delete_ne by discriminate.
    rewrite lookup_insert_ne by discriminate. apply lookup_insert_eq. }
  assert (Hb : fs !! "b" = Some (VNum 2)).
  { subst fs. rewrite lookup_delete_ne by discriminate. apply lookup_insert_eq. }
  assert (Hmut : forall c' : HookContext,
             args_getter c' <> None ->
             forall v : value,
               ctx_set false "arguments" v c' = Ok c'
               /\ exists e, ctx_set true "arguments" v c' = Throw e).
  { intros c' Hc' v. unfold ctx_set. change (names_arguments "arguments") with true.
    rewrite bool_decide_eq_true_2 by exact Hc'. simpl.
    split; [reflexivity | eexists; reflexivity]. }
  assert (Hfrozen : forall (i : nat) (v : value),
             let h' := h ++ [Array true one_two] in
             arr_set false (List.length h) i v h' = (Ok tt, h')
             /\ (exists e, arr_set true (List.length h) i v h' = (Throw e, h'))
             /\ (exists e, arr_push (List.length h) v h' = (Throw e, h'))).
  { intros i v h'. subst h'. unfold arr_set, arr_push.
    rewrite lookup_snapshot. simpl.
    split; [reflexivity|]. split; eexists; reflexivity. }
  destruct (truthy self).
  - rewrite ctx_set_other by reflexivity. simpl.
    eexists. split; [reflexivity|].
    unfold field, ctx_get. change (names_arguments "arguments") with true.
    simpl. unfold alloc, field. simpl.
    rewrite !(lookup_insert_ne _ "self") by discriminate.
    rewrite Ha, Hb. simpl.
    split; [reflexivity|]. split; [reflexivity|]. split; [reflexivity|].
    split; [|split; [apply Hmut; discriminate | exact Hfrozen]].
    intros v. rewrite lookup_insert_eq.
    rewrite lookup_insert_ne by discriminate.
    rewrite lookup_insert_ne by discriminate.
    rewrite Hb. reflexivity.
  - eexists. split; [reflexivity|].
    unfold field, ctx_get. change (names_arguments "arguments") with true.
    simpl. unfold alloc, field. simpl.
    rewrite Ha, Hb. simpl.
    split; [reflexivity|]. split; [reflexivity|]. split; [reflexivity|].
    split; [|split; [apply Hmut; discriminate | exact Hfrozen]].
    intros v. rewrite lookup_insert_eq.
    rewrite lookup_insert_ne by discriminate.
    rewrite Hb. reflexivity.
Qed.

(** ** Object hooks *)

Lemma settings_of_key (hooks : HookMap) (method : string) :
  method ∈ map fst hooks -> exists setting, settings_of hooks method = Some setting.
Proof.
  induction hooks as [|[k v] rest IH]; simpl; intros Hin.
  - exfalso. exact (not_elem_of_nil _ Hin).
  - destruct (String.eqb k method) eqn:Hk; [eexists; reflexivity|].
    apply IH. apply elem_of_cons in Hin as [->|Hin]; [|exact Hin].
    rewrite String.eqb_refl in Hk. discriminate.
Qed.

Section ObjectHooksProperties.

Variable functionHooks : value -> HookSettings -> value.

Lemma reduce_methods_throws (hooks : HookMap) (keys : list string) :
  forall result : object,
    (forall k, k ∈ keys -> k ∈ map fst hooks) ->
    NoDup keys ->
    (exists method, method ∈ keys /\ is_function (property result method) = false) ->
    exists method,
      method ∈ keys
      /\ is_function (property result method) = false
      /\ reduce_methods functionHooks hooks keys result = Throw (not_a_function method).
Proof.
  induction keys as [|k rest IH]; intros result Hsub Hnd (m & Hm & Hnf).
  - exfalso. exact (not_elem_of_nil _ Hm).
  - simpl.
    destruct (settings_of_key hooks k) as [setting ->].
    { apply Hsub, elem_of_cons. left. reflexivity. }
    destruct (is_function (property result k)) eqn:Hfn; simpl.
    + apply NoDup_cons in Hnd as [Hk Hnd].
      set (result' := Object _ _).
      assert (Hsame : forall x, x ∈ rest -> property result' x = property result x).
      { intros x Hx. unfold property. subst result'. simpl.
        rewrite lookup_insert_ne; [reflexivity|]. intros ->. exact (Hk Hx). }
      destruct (IH result') as (m' & Hm' & Hnf' & Hrun).
      * intros x Hx. apply Hsub, elem_of_cons. right. exact Hx.
      * exact Hnd.
      * apply elem_of_cons in Hm as [->|Hm]; [congruence|].
        exists m. split; [exact Hm|]. rewrite Hsame by exact Hm. exact Hnf.
      * exists m'. split; [apply elem_of_cons; right; exact Hm'|].
        split; [|exact Hrun]. rewrite <- Hsame by exact Hm'. exact Hnf'.
    + exists k. split; [apply elem_of_cons; left; reflexivity|].
      split; [exact Hfn | reflexivity].
Qed.

End ObjectHooksProperties.

(** C6: when some method named in the hook map is not a function on the
    object (or on the prototype of the class), [objectHooks] itself throws
    the descriptive error for such a method: registration fails, and no
    wrapped method has been called. *)
Theorem objectHooks_rejects_non_function
    (functionHooks : value -> HookSettings -> value)
    (_obj : receiver) (hooks : HookMap) :
  NoDup (map fst hooks) ->
  (exists method,
      method ∈ map fst hooks
      /\ is_function (property (prototype_or_self _obj) method) = false) ->
  exists method,
    method ∈ map fst hooks
    /\ is_function (property (prototype_or_self _obj) method) = false
    /\ objectHooks functionHooks _obj (HookMapping hooks)
       = Throw (Error ("Can not apply hooks. '" +:+ method +:+ "' is not a function")).
Proof.
  intros Hnd Hex. unfold objectHooks.
  apply reduce_methods_throws; [intros k Hk; exact Hk | exact Hnd | exact Hex].
Qed.

(** C10: the context updater that [objectHooks] installs for a method calls
    the value of [options.context], which [normalizeOptions] has always made
    an array; the call throws before [context.method] is assigned. *)
Theorem method_context_calls_an_array
    (method : string) (setting : HookSettings)
    (self fn : value) (args : loc) (c : HookContext) (h : heap) :
  method_context method (normalizeOptions setting) self fn args c h
  = (Throw (TypeError "originalContext is not a function"), h).
Proof. reflexivity. Qed.

(** ** The composer: onion order *)

Lemma exec_awaits (i : nat) (inner : Run) (n : nat) (k : Middleware) :
  forall s, exec i inner (awaits n k) s = exec i inner k (ticks n s).
Proof. induction n as [|n IH]; intros s; simpl; [reflexivity | apply IH]. Qed.

Lemma ticks_fields (n : nat) :
  forall s, st_ctx (ticks n s) = st_ctx s
            /\ st_heap (ticks n s) = st_heap s
            /\ st_trace (ticks n s) = st_trace s
            /\ st_called (ticks n s) = st_called s.
Proof.
  induction n as [|n IH]; intros s; simpl; [tauto|].
  destruct (IH (tick s)) as (-> & -> & -> & ->). tauto.
Qed.

Lemma observed_app (l1 l2 : list event) :
  observed (l1 ++ l2) = observed l1 ++ observed l2.
Proof. apply List.filter_app. Qed.

Lemma invoke_terminal_returns (T : Terminal) (s : State) :
  returns T -> readable (st_ctx s) ->
  exists s' args,
    invoke_terminal T s = (Resolved, s')
    /\ st_trace s' = st_trace s ++ [EvTerminal args].
Proof.
  intros HT Hr. unfold invoke_terminal.
  destruct (ctx_get_reads_undefined "arguments" (st_ctx s) (st_heap s) Hr)
    as (v & h' & -> & _).
  destruct (HT (spread v h')) as [r ->].
  cbn [log st_ctx].
  destruct (is_undefined (field "result" (st_ctx s)));
    eexists _, _; split; reflexivity.
Qed.

Lemma onion_body (sh : section_shape) :
  onion sh
  = awaits (fst (before_awaits sh))
      (Emit (name sh +:+ "-before")
         (awaits (snd (before_awaits sh))
            (Proceed
               (awaits (fst (after_awaits sh))
                  (Emit (name sh +:+ "-after")
                     (awaits (snd (after_awaits sh)) Done)))))).
Proof. reflexivity. Qed.

Lemma section_state (n1 n2 : nat) (e : event) (s : State) :
  let s' := ticks n2 (log e (ticks n1 s)) in
  st_ctx s' = st_ctx s
  /\ st_heap s' = st_heap s
  /\ st_called s' = st_called s
  /\ st_trace s' = st_trace s ++ [e].
Proof.
  cbn zeta.
  destruct (ticks_fields n2 (log e (ticks n1 s))) as (-> & -> & -> & ->).
  cbn [log st_ctx st_heap st_trace st_called].
  destruct (ticks_fields n1 s) as (-> & -> & -> & ->).
  tauto.
Qed.

Lemma dispatch_onions (T : Terminal) (shapes : list section_shape) :
  returns T ->
  forall (i : nat) (s : State),
    readable (st_ctx s) ->
    fresh_from i s ->
    exists s' args,
      dispatch i (map onion shapes) T s = (Resolved, s')
      /\ observed (st_trace s')
         = observed (st_trace s)
           ++ map before_event shapes
           ++ [EvTerminal args]
           ++ rev (map after_event shapes).
Proof.
  intros HT. induction shapes as [|sh rest IH]; intros i s Hr Hfresh.
  - cbn [map dispatch].
    destruct (invoke_terminal_returns T s HT Hr) as (s' & args & -> & Htr).
    cbn [report]. eexists _, args. split; [reflexivity|].
    cbn [log st_trace]. rewrite Htr, !observed_app. cbn [map rev app].
    change (observed [EvReturn i (field "result" (st_ctx s'))]) with (@nil event).
    rewrite app_nil_r. reflexivity.
  - cbn [map dispatch]. rewrite (onion_body sh).
    rewrite exec_awaits. cbn [exec]. rewrite exec_awaits. cbn [exec].
    destruct (section_state (fst (before_awaits sh)) (snd (before_awaits sh))
                (EvEmit (name sh +:+ "-before")) (log (EvEnter i) s))
      as (Hctx1 & _ & Hcalled1 & Htrace1).
    set (s1 := ticks _ (log (EvEmit _) (ticks _ (log (EvEnter i) s)))) in *.
    cbn [log st_ctx st_called st_trace] in Hctx1, Hcalled1, Htrace1.
    unfold proceed. cbn [log st_called].
    rewrite bool_decide_eq_false_2.
    2:{ rewrite Hcalled1. intros Hin. specialize (Hfresh i Hin). lia. }
    destruct (IH (S i) (mark_called i (log (EvProceed i) s1)))
      as (s2 & args & Hrun & Htr).
    { cbn [mark_called log st_ctx]. rewrite Hctx1. exact Hr. }
    { intros j Hj. cbn [mark_called log st_called] in Hj.
      apply elem_of_cons in Hj as [->|Hj]; [lia|].
      rewrite Hcalled1 in Hj. specialize (Hfresh j Hj). lia. }
    rewrite Hrun. rewrite exec_awaits. cbn [exec]. rewrite exec_awaits. cbn [exec report].
    eexists _, args. split; [reflexivity|].
    cbn [log st_trace].
    destruct (section_state (fst (after_awaits sh)) (snd (after_awaits sh))
                (EvEmit (name sh +:+ "-after")) s2) as (_ & _ & _ & ->).
    rewrite !observed_app, Htr.
    cbn [mark_called log st_trace]. rewrite Htrace1.
    rewrite !observed_app. cbn [map rev].
    change (observed [EvEnter i]) with (@nil event).
    change (observed [EvProceed i]) with (@nil event).
    change (observed [before_event sh]) with [before_event sh].
    change (observed [EvEmit (name sh +:+ "-after")]) with [after_event sh].
    match goal with
    | |- context [observed [EvReturn i ?v]] =>
        change (observed [EvReturn i v]) with (@nil event)
    end.
    rewrite !app_nil_r, <- !app_assoc. reflexivity.
Qed.

(** C1: for middleware A, B, C, each with a before-section and an
    after-section around its one [proceed], and a terminal function T that
    returns, the composed callable resolves and the observed events are
    A-before, B-before, C-before, T, C-after, B-after, A-after, whatever the
    number of suspensions inside the six sections. The context is one whose
    [arguments] can be read. *)
Theorem compose_onion_order
    (A B C : string) (bA aA bB aB bC aC : nat * nat)
    (T : Terminal) (ctx : HookContext) (h : heap) :
  returns T ->
  readable ctx ->
  exists s args,
    compose [onion (Shape A bA aA); onion (Shape B bB aB); onion (Shape C bC aC)]
            T ctx h = (Resolved, s)
    /\ observed (st_trace s)
       = [EvEmit (A +:+ "-before"); EvEmit (B +:+ "-before");
          EvEmit (C +:+ "-before");
          EvTerminal args;
          EvEmit (C +:+ "-after"); EvEmit (B +:+ "-after");
          EvEmit (A +:+ "-after")].
Proof.
  intros HT Hr. unfold compose.
  destruct (dispatch_onions T [Shape A bA aA; Shape B bB aB; Shape C bC aC] HT
              0 (St ctx h [] [] 0)) as (s & args & Hrun & Htr).
  - exact Hr.
  - intros j Hj. exfalso. exact (not_elem_of_nil _ Hj).
  - exists s, args. split; [exact Hrun | exact Htr].
Qed.

(** ** The composer: invariants of a run *)

(** A property of the state that the steps of a middleware and its
    [proceed] keep is kept by the whole activation. *)
Lemma exec_invariant (Inv : State -> Prop) (i : nat) (inner : Run) :
  (forall l s, Inv s -> Inv (log (EvEmit l) s)) ->
  (forall f s, Inv s -> Inv (update f s)) ->
  (forall s, Inv s -> Inv (tick s)) ->
  (forall s, Inv s -> Inv (snd (proceed i inner s))) ->
  forall mw s, Inv s -> Inv (snd (exec i inner mw s)).
Proof.
  intros Hemit Hupd Htick Hproc.
  induction mw as [|l k IH|f k IH|k IH|k IH|e|c k1 IH1 k2 IH2|body IHb handler IHh k IHk];
    intros s Hs; cbn [exec].
  - exact Hs.
  - apply IH, Hemit, Hs.
  - apply IH, Hupd, Hs.
  - apply IH, Htick, Hs.
  - specialize (Hproc s Hs).
    destruct (proceed i inner s) as [[|e] s']; simpl in Hproc |- *.
    + apply IH, Hproc.
    + exact Hproc.
  - exact Hs.
  - destruct (c (st_ctx s)); [apply IH1 | apply IH2]; exact Hs.
  - specialize (IHb s Hs).
    destruct (exec i inner body s) as [[|e] s']; simpl in IHb.
    + apply IHk, IHb.
    + destruct (fatal e); [exact IHb|].
      specialize (IHh e s' IHb).
      destruct (exec i inner (handler e) s') as [[|e'] s'']; simpl in IHh |- *.
      * apply IHk, IHh.
      * exact IHh.
Qed.

(** A middleware without [proceed] in its body keeps what its own steps
    keep, whatever lies inside. *)
Lemma exec_never_proceeds_invariant (Inv : State -> Prop) (mw : Middleware) :
  never_proceeds mw ->
  (forall l s, Inv s -> Inv (log (EvEmit l) s)) ->
  (forall f s, Inv s -> Inv (update f s)) ->
  (forall s, Inv s -> Inv (tick s)) ->
  forall (i : nat) (inner : Run) (s : State),
    Inv s -> Inv (snd (exec i inner mw s)).
Proof.
  intros Hnp Hemit Hupd Htick i inner.
  induction mw as [|l k IH|f k IH|k IH|k IH|e|c k1 IH1 k2 IH2|body IHb handler IHh k IHk];
    cbn [never_proceeds] in Hnp; intros s Hs; cbn [exec].
  - exact Hs.
  - apply IH; [exact Hnp | apply Hemit, Hs].
  - apply IH; [exact Hnp | apply Hupd, Hs].
  - apply IH; [exact Hnp | apply Htick, Hs].
  - contradiction.
  - exact Hs.
  - destruct Hnp as [H1 H2].
    destruct (c (st_ctx s)); [apply IH1 | apply IH2]; assumption.
  - destruct Hnp as (Hb & Hh & Hk).
    specialize (IHb Hb s Hs).
    destruct (exec i inner body s) as [[|e] s']; simpl in IHb.
    + apply IHk; assumption.
    + destruct (fatal e); [exact IHb|].
      specialize (IHh e (Hh e) s' IHb).
      destruct (exec i inner (handler e) s') as [[|e'] s'']; simpl in IHh |- *.
      * apply IHk; assumption.
      * exact IHh.
Qed.

Lemma report_invariant (Inv : State -> Prop) (i : nat) (r : outcome * State) :
  (forall v s, Inv s -> Inv (log (EvReturn i v) s)) ->
  (forall e s, Inv s -> Inv (log (EvFail i e) s)) ->
  Inv (snd r) -> Inv (snd (report i r)).
Proof.
  intros Hret Hfail Hr. destruct r as [[|e] s]; cbn [report snd] in *.
  - apply Hret, Hr.
  - apply Hfail, Hr.
Qed.

(** A property of the state that depends only on the events of positions
    before [j] is kept by the chain from position [j] on. *)
Lemma dispatch_invariant (Inv : State -> Prop) (T : Terminal) (j : nat) :
  (forall e s, at_least j e -> Inv s -> Inv (log e s)) ->
  (forall f s, Inv s -> Inv (update f s)) ->
  (forall s, Inv s -> Inv (tick s)) ->
  (forall i s, Inv s -> Inv (mark_called i s)) ->
  (forall h s, Inv s ->
               Inv (St (st_ctx s) h (st_trace s) (st_called s) (st_ticks s))) ->
  forall (mws : list Middleware) (i : nat) (s : State),
    j <= i -> Inv s -> Inv (snd (dispatch i mws T s)).
Proof.
  intros Hlog Hupd Htick Hmark Hheap.
  induction mws as [|mw rest IH]; intros i s Hji Hs; cbn [dispatch].
  - apply report_invariant.
    + intros v s0. apply Hlog. exact Hji.
    + intros e s0. apply Hlog. exact Hji.
    + unfold invoke_terminal.
      destruct (ctx_get "arguments" (st_ctx s) (st_heap s)) as [[v|e] h'].
      * assert (H1 : Inv (log (EvTerminal (spread v h'))
                            (St (st_ctx s) h' (st_trace s) (st_called s) (st_ticks s)))).
        { apply Hlog; [exact I|]. apply Hheap, Hs. }
        destruct (T (spread v h')) as [r|e]; [|exact H1].
        destruct (is_undefined _); cbn [snd]; [apply Hupd, H1 | exact H1].
      * cbn [snd]. apply Hheap, Hs.
  - apply report_invariant.
    + intros v s0. apply Hlog. exact Hji.
    + intros e s0. apply Hlog. exact Hji.
    + apply exec_invariant.
      * intros l s0. apply Hlog. exact I.
      * exact Hupd.
      * exact Htick.
      * intros s0 H0. unfold proceed.
        assert (H1 : Inv (log (EvProceed i) s0)) by (apply Hlog; [exact Hji | exact H0]).
        destruct (bool_decide (i ∈ st_called (log (EvProceed i) s0))); [exact H1|].
        apply IH; [lia|]. apply Hmark, H1.
      * apply Hlog; [exact Hji | exact Hs].
Qed.

(** What has been recorded stays recorded. *)
Lemma dispatch_trace_grows (T : Terminal) (e : event) (mws : list Middleware)
    (i : nat) (s : State) :
  e ∈ st_trace s -> e ∈ st_trace (snd (dispatch i mws T s)).
Proof.
  apply (dispatch_invariant (fun s0 => e ∈ st_trace s0) T 0); try (intros; assumption).
  - intros e0 s0 _ H. cbn [log st_trace]. apply elem_of_app. left. exact H.
  - lia.
Qed.

Lemma elem_of_log (e e0 : event) (s : State) :
  e ∈ st_trace (log e0 s) <-> e ∈ st_trace s \/ e = e0.
Proof.
  cbn [log st_trace]. rewrite elem_of_app, list_elem_of_singleton. reflexivity.
Qed.

(** ** The composer: short circuit *)

Lemma stays_within_log (n : nat) (e : event) (s : State) :
  not_beyond n e -> stays_within n s -> stays_within n (log e s).
Proof.
  intros He Hs. unfold stays_within, log. cbn [st_trace].
  apply Forall_app. split; [exact Hs | constructor; [exact He | constructor]].
Qed.

Lemma proceeded_or_within_log (n : nat) (e : event) (s : State) :
  not_beyond n e ->
  EvProceed n ∈ st_trace s \/ stays_within n s ->
  EvProceed n ∈ st_trace (log e s) \/ stays_within n (log e s).
Proof.
  intros He [H|H].
  - left. apply elem_of_log. left. exact H.
  - right. apply stays_within_log; assumption.
Qed.

(** As long as the [proceed] of position [n] has not been called, nothing
    beyond position [n] has run. *)
Lemma dispatch_short_circuit (T : Terminal) (n : nat) (mws : list Middleware) :
  forall (i : nat) (s : State),
    i <= n -> n < i + List.length mws ->
    EvProceed n ∈ st_trace s \/ stays_within n s ->
    EvProceed n ∈ st_trace (snd (dispatch i mws T s))
    \/ stays_within n (snd (dispatch i mws T s)).
Proof.
  induction mws as [|mw rest IH]; intros i s Hi Hn Hs; cbn [dispatch].
  - simpl in Hn. lia.
  - apply (report_invariant
             (fun s0 => EvProceed n ∈ st_trace s0 \/ stays_within n s0)).
    + intros v s0. apply proceeded_or_within_log. exact Hi.
    + intros e s0. apply proceeded_or_within_log. exact Hi.
    + apply (exec_invariant
               (fun s0 => EvProceed n ∈ st_trace s0 \/ stays_within n s0)).
      * intros l s0. apply proceeded_or_within_log. exact I.
      * intros f s0 H. exact H.
      * intros s0 H. exact H.
      * intros s0 H0. unfold proceed.
        destruct (bool_decide (i ∈ st_called (log (EvProceed i) s0))).
        -- apply proceeded_or_within_log; [exact I | exact H0].
        -- destruct (decide (i = n)) as [->|Hne].
           ++ left. apply dispatch_trace_grows. cbn [mark_called st_trace].
              apply elem_of_log. right. reflexivity.
           ++ apply IH; [lia | simpl in Hn; lia |].
              apply (proceeded_or_within_log n (EvProceed i) s0 I H0).
      * apply proceeded_or_within_log; [exact Hi | exact Hs].
Qed.

(** Quiet code resolves, keeps [context.result], and records nothing but
    what it logs. *)
Lemma quiet_exec (mw : Middleware) :
  quiet mw ->
  forall (i : nat) (inner : Run) (s : State),
    exists s',
      exec i inner mw s = (Resolved, s')
      /\ field "result" (st_ctx s') = field "result" (st_ctx s)
      /\ forall e, (forall l, e <> EvEmit l) -> e ∈ st_trace s' -> e ∈ st_trace s.
Proof.
  induction mw as [|l k IH|f k IH|k IH|k IH|e|c k1 IH1 k2 IH2|body IHb handler IHh k IHk];
    cbn [quiet]; intros Hq i inner s; cbn [exec].
  - exists s. split; [reflexivity|]. split; [reflexivity|]. intros e _ H. exact H.
  - destruct (IH Hq i inner (log (EvEmit l) s)) as (s' & -> & Hres & Htr).
    exists s'. split; [reflexivity|]. split; [exact Hres|].
    intros e He Hin. apply Htr in Hin; [|exact He].
    apply elem_of_log in Hin as [Hin|Heq]; [exact Hin|].
    exfalso. exact (He l Heq).
  - destruct Hq as [Hf Hq].
    destruct (IH Hq i inner (update f s)) as (s' & -> & Hres & Htr).
    exists s'. split; [reflexivity|]. split; [|exact Htr].
    rewrite Hres. unfold field, update. cbn [st_ctx fields]. rewrite Hf. reflexivity.
  - destruct (IH Hq i inner (tick s)) as (s' & -> & Hres & Htr).
    exists s'. split; [reflexivity|]. split; [exact Hres | exact Htr].
  - contradiction.
  - contradiction.
  - destruct Hq as [H1 H2].
    destruct (c (st_ctx s)); [apply IH1 | apply IH2]; assumption.
  - destruct Hq as [Hb Hk].
    destruct (IHb Hb i inner s) as (s1 & -> & Hres1 & Htr1).
    destruct (IHk Hk i inner s1) as (s2 & -> & Hres2 & Htr2).
    exists s2. split; [reflexivity|]. split; [congruence|].
    intros e He Hin. apply Htr1; [exact He|]. apply Htr2; assumption.
Qed.

Lemma not_returned_decides (c : nat) (o : outcome) (s : State) :
  not_returned c s -> return_decides c (o, s).
Proof. intros Hn v Hin. exfalso. exact (Hn v Hin). Qed.

Lemma not_returned_log (c : nat) (e : event) (s : State) :
  (forall v, e <> EvReturn c v) -> not_returned c s -> not_returned c (log e s).
Proof.
  intros He Hn v Hin. apply elem_of_log in Hin as [Hin|Hin].
  - exact (Hn v Hin).
  - exact (He v (eq_sym Hin)).
Qed.

Lemma quiet_return_decides (c i : nat) (inner : Run) (k : Middleware) (s : State) :
  quiet k ->
  return_decides c (Resolved, s) ->
  return_decides c (exec i inner k s).
Proof.
  intros Hq Hd. destruct (quiet_exec k Hq i inner s) as (s' & -> & Hres & Htr).
  intros v Hin. cbn [fst snd] in *.
  destruct (Hd v) as [_ Hv]; [apply Htr; [discriminate | exact Hin]|].
  cbn [snd] in Hv. split; [reflexivity | congruence].
Qed.

Lemma rejected_not_returned (c : nat) (e : exn) (s : State) :
  return_decides c (Rejected e, s) -> not_returned c s.
Proof. intros Hd v Hin. destruct (Hd v Hin) as [H _]. discriminate H. Qed.

(** A property [Q] of the outcome that holds as soon as [P] holds of the
    state, that quiet code keeps, and that gives [P] back when the run has
    failed, holds after a middleware that is quiet after its [proceed]. *)
Lemma exec_decides (P : State -> Prop) (Q : outcome * State -> Prop)
    (i : nat) (inner : Run) (mw : Middleware) :
  (forall o s, P s -> Q (o, s)) ->
  (forall l s, P s -> P (log (EvEmit l) s)) ->
  (forall f s, P s -> P (update f s)) ->
  (forall s, P s -> P (tick s)) ->
  (forall k s, quiet k -> Q (Resolved, s) -> Q (exec i inner k s)) ->
  (forall e s, Q (Rejected e, s) -> P s) ->
  quiet_after_proceed mw ->
  (forall s, P s -> Q (proceed i inner s)) ->
  forall s, P s -> Q (exec i inner mw s).
Proof.
  intros HPQ Hemit Hupd Htick Hquiet Hback Hq Hproc.
  induction mw as [|l k IH|f k IH|k IH|k IH|e|b k1 IH1 k2 IH2|body IHb handler IHh k IHk];
    cbn [quiet_after_proceed] in Hq; intros s Hs; cbn [exec].
  - apply HPQ, Hs.
  - apply IH; [exact Hq | apply Hemit, Hs].
  - apply IH; [exact Hq | apply Hupd, Hs].
  - apply IH; [exact Hq | apply Htick, Hs].
  - specialize (Hproc s Hs).
    destruct (proceed i inner s) as [[|e] s1].
    + apply Hquiet; assumption.
    + exact Hproc.
  - apply HPQ, Hs.
  - destruct Hq as [H1 H2].
    destruct (b (st_ctx s)); [apply IH1 | apply IH2]; assumption.
  - destruct Hq as [(Hb & Hh & Hk)|(Hb & Hh & Hk)].
    + assert (Hkeep : forall mw0, never_proceeds mw0 -> forall s0,
                 P s0 -> P (snd (exec i inner mw0 s0))).
      { intros mw0 Hnp s0 H0. apply exec_never_proceeds_invariant; assumption. }
      pose proof (Hkeep body Hb s Hs) as Hs1.
      destruct (exec i inner body s) as [[|e] s1]; cbn [snd] in Hs1.
      * apply IHk; assumption.
      * destruct (fatal e); [apply HPQ, Hs1|].
        pose proof (Hkeep (handler e) (Hh e) s1 Hs1) as Hs2.
        destruct (exec i inner (handler e) s1) as [[|e'] s2]; cbn [snd] in Hs2.
        -- apply IHk; assumption.
        -- apply HPQ, Hs2.
    + specialize (IHb Hb s Hs).
      destruct (exec i inner body s) as [[|e] s1].
      * apply Hquiet; assumption.
      * destruct (fatal e); [exact IHb|].
        specialize (IHh e (Hh e) s1 (Hback e s1 IHb)).
        destruct (exec i inner (handler e) s1) as [[|e'] s2].
        -- apply Hquiet; assumption.
        -- exact IHh.
Qed.

Lemma exec_return_decides (c i : nat) (inner : Run) (mw : Middleware) :
  quiet_after_proceed mw ->
  (forall s, not_returned c s -> return_decides c (proceed i inner s)) ->
  forall s, not_returned c s -> return_decides c (exec i inner mw s).
Proof.
  apply (exec_decides (not_returned c) (return_decides c)).
  - intros o s. apply not_returned_decides.
  - intros l s. apply not_returned_log. discriminate.
  - intros f s H. exact H.
  - intros s H. exact H.
  - intros k s. apply quiet_return_decides.
  - apply rejected_not_returned.
Qed.

Lemma report_return_decides (c i : nat) (r : outcome * State) :
  i <> c -> return_decides c r -> return_decides c (report i r).
Proof.
  intros Hne Hd. destruct r as [[|e] s]; cbn [report]; intros v Hin;
    cbn [fst snd] in *; apply elem_of_log in Hin as [Hin|Hin];
    try (injection Hin as ? ?; congruence); try discriminate Hin.
  - destruct (Hd v Hin) as [_ Hv]. split; [reflexivity | exact Hv].
  - destruct (Hd v Hin) as [H _]. discriminate H.
Qed.

(** When the middleware at position [c] has returned, and every middleware
    enclosing it is quiet after its [proceed], the chain resolves with the
    [context.result] of that moment. *)
Lemma dispatch_return_decides (T : Terminal) (c : nat) (rest : list Middleware) :
  forall (pre : list Middleware) (i : nat) (s : State),
    i + List.length pre = c ->
    Forall quiet_after_proceed pre ->
    not_returned c s ->
    return_decides c (dispatch i (pre ++ rest) T s).
Proof.
  induction pre as [|mw pre IH]; intros i s Hlen Hq Hs.
  - assert (Hic : i = c) by (simpl in Hlen; lia). subst i. clear Hlen. cbn [app].
    assert (Hbody : forall r : outcome * State,
               not_returned c (snd r) -> return_decides c (report c r)).
    { intros [[|e] s1] H1; cbn [report snd] in *; intros v Hin; cbn [fst snd] in *;
        apply elem_of_log in Hin as [Hin|Hin]; try (exfalso; exact (H1 v Hin)).
      - injection Hin as ->. split; reflexivity.
      - discriminate Hin. }
    assert (Hdeep : forall (mws : list Middleware) (s0 : State),
               not_returned c s0 ->
               not_returned c (snd (dispatch (S c) mws T s0))).
    { intros mws s0. apply (dispatch_invariant (not_returned c) T (S c));
        try (intros; assumption); [|lia].
      intros e s1 He. apply not_returned_log. intros v ->. simpl in He. lia. }
    destruct rest as [|B post]; cbn [dispatch]; apply Hbody.
    + unfold invoke_terminal.
      destruct (ctx_get "arguments" (st_ctx s) (st_heap s)) as [[v|e] h']; [|exact Hs].
      assert (H1 : not_returned c
                     (log (EvTerminal (spread v h'))
                        (St (st_ctx s) h' (st_trace s) (st_called s) (st_ticks s)))).
      { apply not_returned_log; [discriminate | exact Hs]. }
      destruct (T (spread v h')) as [r|e]; [|exact H1].
      destruct (is_undefined _); exact H1.
    + apply exec_invariant.
      * intros l s0. apply not_returned_log. discriminate.
      * intros f s0 H. exact H.
      * intros s0 H. exact H.
      * intros s0 H0. unfold proceed.
        destruct (bool_decide (c ∈ st_called (log (EvProceed c) s0))).
        -- apply not_returned_log; [discriminate | exact H0].
        -- apply Hdeep. apply (not_returned_log c (EvProceed c) s0); [discriminate | exact H0].
      * apply not_returned_log; [discriminate | exact Hs].
  - apply Forall_cons in Hq as [Hmw Hq]. cbn [app dispatch].
    assert (Hi : i <> c) by (simpl in Hlen; lia).
    apply report_return_decides; [exact Hi|].
    apply exec_return_decides; [exact Hmw | |].
    + intros s0 H0. unfold proceed.
      assert (H1 : not_returned c (log (EvProceed i) s0))
        by (apply not_returned_log; [discriminate | exact H0]).
      destruct (bool_decide (i ∈ st_called (log (EvProceed i) s0))).
      * apply not_returned_decides, H1.
      * apply IH; [simpl in Hlen |- *; lia | exact Hq | exact H1].
    + apply not_returned_log; [discriminate | exact Hs].
Qed.

Lemma compose_return_decides
    (pre rest : list Middleware) (T : Terminal) (ctx : HookContext) (h : heap)
    (v : value) :
  Forall quiet_after_proceed pre ->
  EvReturn (List.length pre) v ∈ st_trace (snd (compose (pre ++ rest) T ctx h)) ->
  settle (compose (pre ++ rest) T ctx h) = Ok v.
Proof.
  intros Hq Hin. unfold compose in *.
  pose proof (dispatch_return_decides T (List.length pre) rest pre 0
                (St ctx h [] [] 0) eq_refl Hq) as Hd.
  destruct (dispatch 0 (pre ++ rest) T (St ctx h [] [] 0)) as [o s'].
  destruct (Hd (fun v0 => not_elem_of_nil _) v Hin) as [Ho Hv].
  cbn [fst snd] in *. subst o. cbn [settle]. rewrite Hv. reflexivity.
Qed.

Ltac by_decision := apply (bool_decide_unpack _); vm_compute; exact I.

(** An enclosing middleware that overwrites [context.result] once its
    [proceed] has returned decides the final result: here the second
    middleware returns without calling [proceed], leaving the result 1, and
    the callable resolves with 2. *)
Lemma short_circuit_result_overwritten :
  let A := Proceed (Update (set_result (VNum 2)) Done) in
  let B := Update (set_result (VNum 1)) Done in
  let T : Terminal := fun _ => Ok (VNum 0) in
  let r := compose [A; B] T (new_context []) [] in
  (EvProceed 1 ∉ st_trace (snd r))
  /\ EvReturn 1 (VNum 1) ∈ st_trace (snd r)
  /\ settle r = Ok (VNum 2).
Proof.
  cbn zeta. split; [by_decision|]. split; [by_decision | reflexivity].
Qed.

(** C2, as the composer has it: in every chain, when the middleware at some
    position never calls its [proceed], no middleware after it is entered
    and the terminal function is not called; and when that middleware has
    returned, and every enclosing middleware is quiet after its [proceed]
    (the code that follows a [proceed] neither throws, nor calls [proceed],
    nor assigns [context.result]), the callable resolves with the
    [context.result] that middleware left when it returned. *)
Theorem compose_short_circuit
    (pre post : list Middleware) (B : Middleware) (T : Terminal)
    (ctx : HookContext) (h : heap) :
  EvProceed (List.length pre)
    ∉ st_trace (snd (compose (pre ++ B :: post) T ctx h)) ->
  stays_within (List.length pre) (snd (compose (pre ++ B :: post) T ctx h))
  /\ forall v : value,
       Forall quiet_after_proceed pre ->
       EvReturn (List.length pre) v
         ∈ st_trace (snd (compose (pre ++ B :: post) T ctx h)) ->
       settle (compose (pre ++ B :: post) T ctx h) = Ok v.
Proof.
  intros Hnever. split.
  - unfold compose in *.
    destruct (dispatch_short_circuit T (List.length pre) (pre ++ B :: post) 0
                (St ctx h [] [] 0)) as [Hin|Hw].
    + lia.
    + rewrite length_app. simpl. lia.
    + right. constructor.
    + contradiction.
    + exact Hw.
  - intros v Hq Hin. apply compose_return_decides; assumption.
Qed.

(** ** The composer: calling [proceed] twice *)

Lemma terminal_calls_log (e : event) (s : State) :
  terminal_calls (log e s)
  = terminal_calls s + (if is_terminal_call e then 1 else 0).
Proof.
  unfold terminal_calls, log. cbn [st_trace].
  rewrite List.filter_app, List.length_app. cbn [List.filter].
  destruct (is_terminal_call e); reflexivity.
Qed.

Lemma invoke_terminal_once (T : Terminal) (s : State) :
  terminal_calls (snd (invoke_terminal T s)) <= S (terminal_calls s)
  /\ st_called (snd (invoke_terminal T s)) = st_called s.
Proof.
  unfold invoke_terminal.
  destruct (ctx_get "arguments" (st_ctx s) (st_heap s)) as [[v|e] h'].
  - set (s1 := log _ _).
    assert (H1 : terminal_calls s1 = S (terminal_calls s)).
    { subst s1. rewrite terminal_calls_log. cbn [is_terminal_call].
      unfold terminal_calls. cbn [st_trace]. lia. }
    destruct (T (spread v h')) as [r|e].
    + destruct (is_undefined (field "result" (st_ctx s1))); cbn [snd];
        split; try reflexivity.
      * change (terminal_calls (update (set_result r) s1)) with (terminal_calls s1). lia.
      * lia.
    + cbn [snd]. split; [lia | reflexivity].
  - cbn [snd]. split; [|reflexivity].
    unfold terminal_calls. cbn [st_trace]. lia.
Qed.

Lemma report_terminal_calls (i : nat) (r : outcome * State) :
  terminal_calls (snd (report i r)) = terminal_calls (snd r)
  /\ st_called (snd (report i r)) = st_called (snd r).
Proof.
  destruct r as [[|e] s]; cbn [report snd]; rewrite terminal_calls_log;
    cbn [is_terminal_call log st_called]; split; (lia || reflexivity).
Qed.

Lemma dispatch_terminal_once (T : Terminal) (mws : list Middleware) :
  forall (i : nat) (s : State),
    fresh_from i s ->
    terminal_calls (snd (dispatch i mws T s)) <= S (terminal_calls s)
    /\ forall j, j ∈ st_called s -> j ∈ st_called (snd (dispatch i mws T s)).
Proof.
  induction mws as [|mw rest IH]; intros i s Hfresh; cbn [dispatch];
    match goal with
    | |- context [report i ?r] => destruct (report_terminal_calls i r) as [-> ->]
    end.
  - destruct (invoke_terminal_once T s) as [H1 H2]. split; [exact H1|].
    rewrite H2. tauto.
  - set (t0 := terminal_calls s).
    set (Inv := fun s1 : State =>
           ((i ∈ st_called s1 /\ terminal_calls s1 <= S t0)
            \/ (fresh_from i s1 /\ terminal_calls s1 <= t0))
           /\ forall j, j ∈ st_called s -> j ∈ st_called s1).
    assert (Hfinal : Inv (snd (exec i (dispatch (S i) rest T) mw (log (EvEnter i) s)))).
    { apply exec_invariant.
      - intros l s1 H1. subst Inv. cbn beta in *.
        rewrite terminal_calls_log. cbn [is_terminal_call log st_called].
        rewrite Nat.add_0_r. exact H1.
      - intros f s1 H1. exact H1.
      - intros s1 H1. exact H1.
      - intros s1 [Hcases Hmono]. unfold proceed. cbn [log st_called].
        destruct (decide (i ∈ st_called s1)) as [Hin|Hnin].
        + rewrite bool_decide_eq_true_2 by exact Hin. cbn [snd].
          split; [|exact Hmono].
          rewrite terminal_calls_log. cbn [is_terminal_call log st_called].
          rewrite Nat.add_0_r. exact Hcases.
        + rewrite bool_decide_eq_false_2 by exact Hnin.
          destruct Hcases as [[Hin _]|[Hf Ht]]; [contradiction|].
          destruct (IH (S i) (mark_called i (log (EvProceed i) s1))) as [Hle Hm].
          { intros j Hj. cbn [mark_called log st_called] in Hj.
            apply elem_of_cons in Hj as [->|Hj]; [lia|].
            specialize (Hf j Hj). lia. }
          split.
          * left. split.
            -- apply Hm. cbn [mark_called st_called]. apply elem_of_cons. left. reflexivity.
            -- change (terminal_calls (mark_called i (log (EvProceed i) s1)))
                 with (terminal_calls (log (EvProceed i) s1)) in Hle.
               rewrite terminal_calls_log in Hle. cbn [is_terminal_call] in Hle. lia.
          * intros j Hj. apply Hm. cbn [mark_called log st_called].
            apply elem_of_cons. right. apply Hmono, Hj.
      - subst Inv. cbn beta. split.
        + right. split; [exact Hfresh|].
          rewrite terminal_calls_log. cbn [is_terminal_call]. subst t0. lia.
        + intros j Hj. exact Hj. }
    destruct Hfinal as [[[_ Hle]|[_ Hle]] Hmono]; (split; [subst t0; lia | exact Hmono]).
Qed.

Lemma proceed_calls_log (i : nat) (e : event) (s : State) :
  proceed_calls i (log e s)
  = proceed_calls i s + (if decide (e = EvProceed i) then 1 else 0).
Proof.
  unfold proceed_calls, log. cbn [st_trace].
  rewrite count_occ_app. cbn [count_occ].
  destruct (event_eq_dec e (EvProceed i)), (decide (e = EvProceed i));
    try reflexivity; contradiction.
Qed.

Lemma single_calls_log (e : event) (s : State) :
  (forall i, e <> EvProceed i) -> single_calls s -> single_calls (log e s).
Proof.
  intros He Hs i. rewrite proceed_calls_log.
  destruct (decide (e = EvProceed i)) as [Heq|_]; [exfalso; exact (He i Heq)|].
  rewrite Nat.add_0_r. exact (Hs i).
Qed.

Lemma proceed_single_or_violation (i : nat) (inner : Run) :
  (forall s, single_calls s -> single_or_violation (inner s)) ->
  forall s, single_calls s -> single_or_violation (proceed i inner s).
Proof.
  intros Hinner s Hs. unfold proceed. cbn [log st_called].
  destruct (decide (i ∈ st_called s)) as [Hin|Hnin].
  - rewrite bool_decide_eq_true_2 by exact Hin. right. reflexivity.
  - rewrite bool_decide_eq_false_2 by exact Hnin. apply Hinner.
    intros j.
    change (proceed_calls j (mark_called i (log (EvProceed i) s)))
      with (proceed_calls j (log (EvProceed i) s)).
    rewrite proceed_calls_log. cbn [mark_called log st_called].
    destruct (Hs j) as [Hle Hiff].
    destruct (decide (EvProceed i = EvProceed j)) as [Heq|Hne].
    + injection Heq as <-.
      assert (proceed_calls i s = 0) by (destruct (proceed_calls i s); [reflexivity|];
                                         exfalso; apply Hnin, Hiff; lia).
      split; [lia|]. split; [lia|]. intros _. apply elem_of_cons. left. reflexivity.
    + rewrite Nat.add_0_r. split; [exact Hle|].
      rewrite elem_of_cons. split.
      * intros [->|Hj]; [contradiction Hne; reflexivity | apply Hiff, Hj].
      * intros Hj. right. apply Hiff, Hj.
Qed.

(** A try/catch scope does not recover the violation, so it reaches the end
    of the activation. *)
Lemma exec_single_or_violation (i : nat) (inner : Run) (mw : Middleware) :
  (forall s, single_calls s -> single_or_violation (proceed i inner s)) ->
  forall s, single_calls s -> single_or_violation (exec i inner mw s).
Proof.
  intros Hproc.
  induction mw as [|l k IH|f k IH|k IH|k IH|e|c k1 IH1 k2 IH2|body IHb handler IHh k IHk];
    intros s Hs; cbn [exec].
  - left. exact Hs.
  - apply IH. apply single_calls_log; [discriminate | exact Hs].
  - apply IH. exact Hs.
  - apply IH. exact Hs.
  - specialize (Hproc s Hs).
    destruct (proceed i inner s) as [[|e] s'].
    + destruct Hproc as [Hgood|Hbad]; [|discriminate Hbad].
      apply IH. exact Hgood.
    + exact Hproc.
  - left. exact Hs.
  - destruct (c (st_ctx s)); [apply IH1 | apply IH2]; exact Hs.
  - specialize (IHb s Hs).
    destruct (exec i inner body s) as [[|e] s'].
    + destruct IHb as [Hgood|Hbad]; [|discriminate Hbad].
      apply IHk. exact Hgood.
    + destruct (fatal e) eqn:Hfatal; [exact IHb|].
      destruct IHb as [Hgood|Hbad].
      2:{ cbn [fst] in Hbad. injection Hbad as ->. discriminate Hfatal. }
      specialize (IHh e s' Hgood).
      destruct (exec i inner (handler e) s') as [[|e'] s''].
      * destruct IHh as [Hgood'|Hbad]; [|discriminate Hbad].
        apply IHk. exact Hgood'.
      * exact IHh.
Qed.

Lemma invoke_terminal_single_calls (T : Terminal) (s : State) :
  single_calls s -> single_calls (snd (invoke_terminal T s)).
Proof.
  intros Hs. unfold invoke_terminal.
  destruct (ctx_get "arguments" (st_ctx s) (st_heap s)) as [[v|e] h'].
  - assert (H1 : single_calls
                   (log (EvTerminal (spread v h'))
                      (St (st_ctx s) h' (st_trace s) (st_called s) (st_ticks s)))).
    { apply single_calls_log; [discriminate | exact Hs]. }
    destruct (T (spread v h')) as [r|e]; [|exact H1].
    destruct (is_undefined _); exact H1.
  - exact Hs.
Qed.

Lemma report_single_or_violation (i : nat) (r : outcome * State) :
  single_or_violation r -> single_or_violation (report i r).
Proof.
  destruct r as [[|e] s]; cbn [report]; intros [H|H]; cbn [fst snd] in *.
  - left. apply single_calls_log; [discriminate | exact H].
  - discriminate H.
  - left. apply single_calls_log; [discriminate | exact H].
  - right. exact H.
Qed.

Lemma dispatch_single_or_violation (T : Terminal) (mws : list Middleware) :
  forall (i : nat) (s : State),
    single_calls s -> single_or_violation (dispatch i mws T s).
Proof.
  induction mws as [|mw rest IH]; intros i s Hs; cbn [dispatch];
    apply report_single_or_violation.
  - left. apply invoke_terminal_single_calls, Hs.
  - apply exec_single_or_violation.
    + apply proceed_single_or_violation. intros s0. apply IH.
    + apply single_calls_log; [discriminate | exact Hs].
Qed.

(** C3: in every chain, when some middleware calls its [proceed] a second
    time within the invocation, the composed callable fails with the
    protocol violation "next() called multiple times"; and the terminal
    function runs at most once in every invocation. *)
Theorem compose_proceed_twice
    (mws : list Middleware) (T : Terminal) (ctx : HookContext) (h : heap) :
  terminal_calls (snd (compose mws T ctx h)) <= 1
  /\ ((exists i, 2 <= proceed_calls i (snd (compose mws T ctx h))) ->
      fst (compose mws T ctx h)
      = Rejected (ProtocolViolation "next() called multiple times")).
Proof.
  split.
  - unfold compose.
    destruct (dispatch_terminal_once T mws 0 (St ctx h [] [] 0)) as [Hle _].
    + intros j Hj. exfalso. exact (not_elem_of_nil _ Hj).
    + exact Hle.
  - intros [i Hi]. unfold compose in *.
    destruct (dispatch_single_or_violation T mws 0 (St ctx h [] [] 0)) as [Hgood|Hbad].
    + intros j. unfold proceed_calls. cbn [st_trace st_called count_occ].
      split; [lia|]. split; [|lia].
      intros Hj. exfalso. exact (not_elem_of_nil _ Hj).
    + destruct (Hgood i) as [Hle _]. lia.
    + exact Hbad.
Qed.

(** ** The composer: failures *)

(** The activation at position [i] is its body followed by the record of how
    it ended; the body records events of position [i] or further in, and
    neither a return nor a failure of position [i]. *)
Lemma dispatch_body (T : Terminal) (i : nat) (mws : list Middleware) (s : State) :
  exists r,
    dispatch i mws T s = report i r
    /\ forall Inv : State -> Prop,
         (forall e s0, at_least i e ->
                       (forall v, e <> EvReturn i v) ->
                       (forall x, e <> EvFail i x) ->
                       Inv s0 -> Inv (log e s0)) ->
         (forall f s0, Inv s0 -> Inv (update f s0)) ->
         (forall s0, Inv s0 -> Inv (tick s0)) ->
         (forall k s0, Inv s0 -> Inv (mark_called k s0)) ->
         (forall h s0, Inv s0 ->
                       Inv (St (st_ctx s0) h (st_trace s0) (st_called s0) (st_ticks s0))) ->
         Inv s -> Inv (snd r).
Proof.
  destruct mws as [|mw rest]; cbn [dispatch]; eexists; (split; [reflexivity|]);
    intros Inv Hlog Hupd Htick Hmark Hheap Hs.
  - unfold invoke_terminal.
    destruct (ctx_get "arguments" (st_ctx s) (st_heap s)) as [[v|e] h'].
    + assert (H1 : Inv (log (EvTerminal (spread v h'))
                          (St (st_ctx s) h' (st_trace s) (st_called s) (st_ticks s)))).
      { apply Hlog; [exact I | discriminate | discriminate |]. apply Hheap, Hs. }
      destruct (T (spread v h')) as [r|e]; [|exact H1].
      destruct (is_undefined _); cbn [snd]; [apply Hupd, H1 | exact H1].
    + cbn [snd]. apply Hheap, Hs.
  - apply exec_invariant.
    + intros l s0. apply Hlog; [exact I | discriminate | discriminate].
    + exact Hupd.
    + exact Htick.
    + intros s0 H0. unfold proceed.
      assert (H1 : Inv (log (EvProceed i) s0)).
      { apply Hlog; [simpl; lia | discriminate | discriminate | exact H0]. }
      destruct (bool_decide (i ∈ st_called (log (EvProceed i) s0))); [exact H1|].
      apply (dispatch_invariant Inv T (S i)); try assumption; [|lia|apply Hmark, H1].
      intros e s1 He. apply Hlog.
      * destruct e; simpl in He |- *; try exact I; lia.
      * intros v ->. simpl in He. lia.
      * intros x ->. simpl in He. lia.
    + apply Hlog; [simpl; lia | discriminate | discriminate | exact Hs].
Qed.

Lemma no_failure_decides (n : nat) (o : outcome) (s : State) :
  no_failure_at n s -> failure_decides n (o, s).
Proof. intros Hn e Hin. exfalso. exact (Hn e Hin). Qed.

Lemma no_failure_log (n : nat) (e : event) (s : State) :
  (forall x, e <> EvFail n x) -> no_failure_at n s -> no_failure_at n (log e s).
Proof.
  intros He Hn x Hin. apply elem_of_log in Hin as [Hin|Hin].
  - exact (Hn x Hin).
  - exact (He x (eq_sym Hin)).
Qed.

Lemma resolved_no_failure (n : nat) (s : State) :
  failure_decides n (Resolved, s) -> no_failure_at n s.
Proof. intros Hd e Hin. specialize (Hd e Hin). discriminate Hd. Qed.

(** A middleware without a [proceed] inside a try body hands on the
    failure of its [proceed]. *)
Lemma exec_failure_decides (n i : nat) (inner : Run) (mw : Middleware) :
  no_catch_around_proceed mw ->
  (forall s, no_failure_at n s -> failure_decides n (proceed i inner s)) ->
  forall s, no_failure_at n s -> failure_decides n (exec i inner mw s).
Proof.
  intros Hnc Hproc.
  induction mw as [|l k IH|f k IH|k IH|k IH|e|b k1 IH1 k2 IH2|body IHb handler IHh k IHk];
    cbn [no_catch_around_proceed] in Hnc; intros s Hs; cbn [exec].
  - apply no_failure_decides, Hs.
  - apply IH; [exact Hnc|]. apply no_failure_log; [discriminate | exact Hs].
  - apply IH; [exact Hnc | exact Hs].
  - apply IH; [exact Hnc | exact Hs].
  - specialize (Hproc s Hs).
    destruct (proceed i inner s) as [[|e] s1].
    + apply IH; [exact Hnc|]. apply resolved_no_failure, Hproc.
    + exact Hproc.
  - apply no_failure_decides, Hs.
  - destruct Hnc as [H1 H2].
    destruct (b (st_ctx s)); [apply IH1 | apply IH2]; assumption.
  - destruct Hnc as (Hb & Hh & Hk).
    assert (Hs1 : no_failure_at n (snd (exec i inner body s))).
    { apply exec_never_proceeds_invariant; try assumption.
      - intros l s1. apply no_failure_log. discriminate.
      - intros f s1 H. exact H.
      - intros s1 H. exact H. }
    destruct (exec i inner body s) as [[|e] s1]; cbn [snd] in Hs1.
    + apply IHk; assumption.
    + destruct (fatal e); [apply no_failure_decides, Hs1|].
      specialize (IHh e (Hh e) s1 Hs1).
      destruct (exec i inner (handler e) s1) as [[|e'] s2].
      * apply IHk; [exact Hk|]. apply resolved_no_failure, IHh.
      * exact IHh.
Qed.

Lemma report_failure_decides (n i : nat) (r : outcome * State) :
  i <> n -> failure_decides n r -> failure_decides n (report i r).
Proof.
  intros Hne Hd. destruct r as [[|e] s]; cbn [report]; intros x Hin;
    cbn [fst snd] in *; apply elem_of_log in Hin as [Hin|Hin];
    try (injection Hin as ? ?; congruence); try discriminate Hin.
  - exact (Hd x Hin).
  - exact (Hd x Hin).
Qed.

(** When the activation at position [n] has failed, and no middleware
    enclosing it has a [proceed] inside a try body, the chain fails with the
    same failure. *)
Lemma dispatch_failure_decides (T : Terminal) (n : nat) (rest : list Middleware) :
  forall (pre : list Middleware) (i : nat) (s : State),
    i + List.length pre = n ->
    Forall no_catch_around_proceed pre ->
    no_failure_at n s ->
    failure_decides n (dispatch i (pre ++ rest) T s).
Proof.
  induction pre as [|mw pre IH]; intros i s Hlen Hq Hs.
  - assert (Hin : i = n) by (simpl in Hlen; lia). subst i. clear Hlen. cbn [app].
    destruct (dispatch_body T n rest s) as (r & -> & Hbody).
    assert (Hr : no_failure_at n (snd r)).
    { apply Hbody; try (intros; assumption).
      intros e s0 _ _ He. apply no_failure_log. exact He. }
    destruct r as [[|e] s1]; cbn [report snd] in *; intros x Hx; cbn [fst snd] in *;
      apply elem_of_log in Hx as [Hx|Hx]; try (exfalso; exact (Hr x Hx)).
    + discriminate Hx.
    + injection Hx as ->. reflexivity.
  - apply Forall_cons in Hq as [Hmw Hq]. cbn [app dispatch].
    assert (Hi : i <> n) by (simpl in Hlen; lia).
    apply report_failure_decides; [exact Hi|].
    apply exec_failure_decides; [exact Hmw | |].
    + intros s0 H0. unfold proceed.
      assert (H1 : no_failure_at n (log (EvProceed i) s0))
        by (apply no_failure_log; [discriminate | exact H0]).
      destruct (bool_decide (i ∈ st_called (log (EvProceed i) s0))).
      * apply no_failure_decides, H1.
      * apply IH; [simpl in Hlen |- *; lia | exact Hq | exact H1].
    + apply no_failure_log; [discriminate | exact Hs].
Qed.

Lemma compose_failure_decides
    (pre rest : list Middleware) (T : Terminal) (ctx : HookContext) (h : heap)
    (E : exn) :
  Forall no_catch_around_proceed pre ->
  EvFail (List.length pre) E ∈ st_trace (snd (compose (pre ++ rest) T ctx h)) ->
  settle (compose (pre ++ rest) T ctx h) = Throw E.
Proof.
  intros Hq Hin. unfold compose in *.
  pose proof (dispatch_failure_decides T (List.length pre) rest pre 0
                (St ctx h [] [] 0) eq_refl Hq) as Hd.
  destruct (dispatch 0 (pre ++ rest) T (St ctx h [] [] 0)) as [o s'].
  specialize (Hd (fun x => not_elem_of_nil _) E Hin).
  cbn [fst snd] in *. subst o. reflexivity.
Qed.

Lemma only_fatal_decides (n : nat) (v : exn -> value) (o : outcome) (s : State) :
  only_fatal_failures n s -> catch_decides n v (o, s).
Proof. intros Hn e Hin Hf. rewrite (Hn e Hin) in Hf. discriminate Hf. Qed.

Lemma only_fatal_log (n : nat) (e : event) (s : State) :
  (forall x, e <> EvFail n x) -> only_fatal_failures n s ->
  only_fatal_failures n (log e s).
Proof.
  intros He Hn x Hin. apply elem_of_log in Hin as [Hin|Hin].
  - exact (Hn x Hin).
  - exfalso. exact (He x (eq_sym Hin)).
Qed.

Lemma rejected_only_fatal (n : nat) (v : exn -> value) (e : exn) (s : State) :
  catch_decides n v (Rejected e, s) -> only_fatal_failures n s.
Proof.
  intros Hd x Hin. destruct (fatal x) eqn:Hf; [reflexivity|].
  destruct (Hd x Hin Hf) as [H _]. discriminate H.
Qed.

Lemma quiet_catch_decides (n : nat) (v : exn -> value) (i : nat) (inner : Run)
    (k : Middleware) (s : State) :
  quiet k -> catch_decides n v (Resolved, s) -> catch_decides n v (exec i inner k s).
Proof.
  intros Hq Hd. destruct (quiet_exec k Hq i inner s) as (s' & -> & Hres & Htr).
  intros e Hin Hf. cbn [fst snd] in *.
  destruct (Hd e) as [_ Hv]; [apply Htr; [discriminate | exact Hin] | exact Hf |].
  cbn [snd] in Hv. split; [reflexivity | congruence].
Qed.

Lemma report_catch_decides (n : nat) (v : exn -> value) (i : nat)
    (r : outcome * State) :
  i <> n -> catch_decides n v r -> catch_decides n v (report i r).
Proof.
  intros Hne Hd. destruct r as [[|e] s]; cbn [report]; intros x Hin Hf;
    cbn [fst snd] in *; apply elem_of_log in Hin as [Hin|Hin];
    try (injection Hin as ? ?; congruence); try discriminate Hin.
  - destruct (Hd x Hin Hf) as [_ Hv]. split; [reflexivity | exact Hv].
  - destruct (Hd x Hin Hf) as [H _]. discriminate H.
Qed.

(** The failures of the activation at position [n] that are recorded when
    it has ended: fatal ones, or the one it has ended with. *)
Lemma dispatch_failure_recorded (T : Terminal) (n : nat) (mws : list Middleware)
    (s : State) :
  only_fatal_failures n s ->
  forall e, EvFail n e ∈ st_trace (snd (dispatch n mws T s)) ->
            fatal e = true \/ fst (dispatch n mws T s) = Rejected e.
Proof.
  intros Hs. destruct (dispatch_body T n mws s) as (r & -> & Hbody).
  assert (Hr : only_fatal_failures n (snd r)).
  { apply Hbody; try (intros; assumption).
    intros e s0 _ _ He. apply only_fatal_log. exact He. }
  destruct r as [[|x] s1]; cbn [report snd fst] in *; intros e Hin;
    apply elem_of_log in Hin as [Hin|Hin]; try (left; exact (Hr e Hin)).
  - discriminate Hin.
  - injection Hin as ->. right. reflexivity.
Qed.

(** The catching middleware: when what it encloses fails with a failure that
    is not fatal, it returns with the result it sets. *)
Lemma catcher_catch_decides (T : Terminal) (c : nat) (v : exn -> value)
    (rest : list Middleware) (s : State) :
  only_fatal_failures (S c) s ->
  catch_decides (S c) v (dispatch c (catcher v :: rest) T s).
Proof.
  intros Hs. cbn [dispatch]. unfold catcher. cbn [exec]. unfold proceed.
  assert (H1 : only_fatal_failures (S c) (log (EvProceed c) (log (EvEnter c) s))).
  { apply only_fatal_log; [discriminate|]. apply only_fatal_log; [discriminate|]. exact Hs. }
  destruct (bool_decide (c ∈ st_called (log (EvProceed c) (log (EvEnter c) s)))).
  - cbn [multiple_calls fatal]. apply report_catch_decides; [lia|].
    apply only_fatal_decides, H1.
  - pose proof (dispatch_failure_recorded T (S c) rest
                  (mark_called c (log (EvProceed c) (log (EvEnter c) s))) H1) as Hrec.
    destruct (dispatch (S c) rest T
                (mark_called c (log (EvProceed c) (log (EvEnter c) s)))) as [[|x] s2];
      cbn [fst snd] in Hrec.
    + cbn [exec]. apply report_catch_decides; [lia|].
      intros e Hin Hf. destruct (Hrec e Hin) as [H|H]; [congruence | discriminate H].
    + destruct (fatal x) eqn:Hx.
      * apply report_catch_decides; [lia|].
        intros e Hin Hf. destruct (Hrec e Hin) as [H|H]; [congruence|].
        injection H as ->. congruence.
      * cbn [exec]. apply report_catch_decides; [lia|].
        intros e Hin Hf. cbn [fst snd update st_trace] in *.
        destruct (Hrec e Hin) as [H|H]; [congruence|].
        injection H as ->. split; [reflexivity|].
        unfold field, set_result, update. cbn [st_ctx fields].
        rewrite lookup_insert_eq. reflexivity.
Qed.

(** When the middleware at position [c] catches, and every middleware
    enclosing it is quiet after its [proceed], the chain resolves with the
    result the catching middleware sets. *)
Lemma dispatch_catch_decides (T : Terminal) (c : nat) (v : exn -> value)
    (rest : list Middleware) :
  forall (pre : list Middleware) (i : nat) (s : State),
    i + List.length pre = c ->
    Forall quiet_after_proceed pre ->
    only_fatal_failures (S c) s ->
    catch_decides (S c) v (dispatch i (pre ++ catcher v :: rest) T s).
Proof.
  induction pre as [|mw pre IH]; intros i s Hlen Hq Hs.
  - assert (Hic : i = c) by (simpl in Hlen; lia). subst i. cbn [app].
    apply catcher_catch_decides, Hs.
  - apply Forall_cons in Hq as [Hmw Hq]. cbn [app dispatch].
    apply report_catch_decides; [simpl in Hlen; lia|].
    apply (exec_decides (only_fatal_failures (S c)) (catch_decides (S c) v)).
    + intros o s0. apply only_fatal_decides.
    + intros l s0. apply only_fatal_log. discriminate.
    + intros f s0 H. exact H.
    + intros s0 H. exact H.
    + intros k s0. apply quiet_catch_decides.
    + apply rejected_only_fatal.
    + exact Hmw.
    + intros s0 H0. unfold proceed.
      assert (H1 : only_fatal_failures (S c) (log (EvProceed i) s0))
        by (apply only_fatal_log; [discriminate | exact H0]).
      destruct (bool_decide (i ∈ st_called (log (EvProceed i) s0))).
      * apply only_fatal_decides, H1.
      * apply IH; [simpl in Hlen |- *; lia | exact Hq | exact H1].
    + apply only_fatal_log; [discriminate | exact Hs].
Qed.

Lemma compose_catch_decides
    (outer rest : list Middleware) (v : exn -> value) (T : Terminal)
    (ctx : HookContext) (h : heap) (E : exn) :
  Forall quiet_after_proceed outer ->
  fatal E = false ->
  EvFail (S (List.length outer)) E
    ∈ st_trace (snd (compose (outer ++ catcher v :: rest) T ctx h)) ->
  settle (compose (outer ++ catcher v :: rest) T ctx h) = Ok (v E).
Proof.
  intros Hq Hf Hin. unfold compose in *.
  pose proof (dispatch_catch_decides T (List.length outer) v rest outer 0
                (St ctx h [] [] 0) eq_refl Hq) as Hd.
  destruct (dispatch 0 (outer ++ catcher v :: rest) T (St ctx h [] [] 0)) as [o s'].
  destruct (Hd (fun x Hx => False_ind _ (not_elem_of_nil _ Hx)) E Hin Hf) as [Ho Hv].
  cbn [fst snd] in *. subst o. cbn [settle]. rewrite Hv. reflexivity.
Qed.

(** The failure of the terminal function is caught by the inner middleware,
    which sets the result 1 and returns; the outer middleware then sets the
    result 2, and that is what the callable resolves with. *)
Lemma caught_result_overwritten :
  let A := Proceed (Update (set_result (VNum 2)) Done) in
  let B := catcher (fun _ => VNum 1) in
  let T : Terminal := fun _ => Throw (Error "E") in
  let r := compose [A; B] T (new_context []) [] in
  settle (compose [B] T (new_context []) []) = Ok (VNum 1)
  /\ EvFail 2 (Error "E") ∈ st_trace (snd r)
  /\ EvReturn 1 (VNum 1) ∈ st_trace (snd r)
  /\ settle r = Ok (VNum 2).
Proof.
  cbn zeta. split; [reflexivity|]. split; [by_decision|].
  split; [by_decision | reflexivity].
Qed.

(** C4, as the composer has it: in every chain, when the activation of the
    terminal function or of a middleware has failed with [E], and no
    enclosing middleware has a [proceed] inside the guarded body of a
    try/catch scope, the composed callable rejects with [E] itself; when an
    enclosing middleware has returned although an activation inside it had
    failed (the failure was caught on the way), and every middleware
    enclosing that one is quiet after its [proceed] (the code that follows
    a [proceed] neither throws, nor calls [proceed], nor assigns
    [context.result]), the callable resolves with the [context.result] that
    middleware left when it returned; and for the middleware that awaits
    [proceed] in a try/catch scope and sets [context.result] to [v E] in the
    handler, with a failure [E] that is not fatal, that result is [v E]. *)
Theorem compose_failure_propagation
    (T : Terminal) (ctx : HookContext) (h : heap) (E : exn) :
  (forall pre rest : list Middleware,
      Forall no_catch_around_proceed pre ->
      EvFail (List.length pre) E ∈ st_trace (snd (compose (pre ++ rest) T ctx h)) ->
      settle (compose (pre ++ rest) T ctx h) = Throw E)
  /\ (forall (outer rest : list Middleware) (n : nat) (v : value),
        Forall quiet_after_proceed outer ->
        List.length outer < n ->
        EvFail n E ∈ st_trace (snd (compose (outer ++ rest) T ctx h)) ->
        EvReturn (List.length outer) v
          ∈ st_trace (snd (compose (outer ++ rest) T ctx h)) ->
        settle (compose (outer ++ rest) T ctx h) = Ok v)
  /\ (forall (outer rest : list Middleware) (v : exn -> value),
        Forall quiet_after_proceed outer ->
        fatal E = false ->
        EvFail (S (List.length outer)) E
          ∈ st_trace (snd (compose (outer ++ catcher v :: rest) T ctx h)) ->
        settle (compose (outer ++ catcher v :: rest) T ctx h) = Ok (v E)).
Proof.
  split; [|split].
  - intros pre rest. apply compose_failure_decides.
  - intros outer rest n v Hq _ _. apply compose_return_decides. exact Hq.
  - intros outer rest v. apply compose_catch_decides.
Qed.

(** ** The theorems at concrete inputs *)

Lemma readable_empty_context : readable empty_context.
Proof. intros a H. discriminate H. Defined.

Lemma compose_onion_order_witness :
  exists s args,
    compose [onion (Shape "A" (1, 0) (0, 2)); onion (Shape "B" (0, 0) (3, 0));
             onion (Shape "C" (2, 1) (0, 0))]
            returns_seven empty_context [] = (Resolved, s)
    /\ observed (st_trace s)
       = [EvEmit "A-before"; EvEmit "B-before"; EvEmit "C-before";
          EvTerminal args;
          EvEmit "C-after"; EvEmit "B-after"; EvEmit "A-after"].
Proof.
  apply (compose_onion_order "A" "B" "C" (1, 0) (0, 2) (0, 0) (3, 0) (2, 1) (0, 0)
           returns_seven empty_context []).
  - intros args. exists (VNum 7). reflexivity.
  - exact readable_empty_context.
Defined.

(** The second middleware decides at run time: it finds no result, sets one
    and returns without calling [proceed]. *)
Lemma compose_short_circuit_witness :
  let A := onion (Shape "A" (0, 1) (1, 0)) in
  let B := Branch (fun c => is_undefined (field "result" c))
                  (Update (set_result (VNum 1)) Done) (Proceed Done) in
  let C := onion (Shape "C" (0, 0) (0, 0)) in
  let r := compose ([A] ++ B :: [C]) returns_seven empty_context [] in
  (EvProceed 1 ∉ st_trace (snd r))
  /\ Forall quiet_after_proceed [A]
  /\ EvReturn 1 (VNum 1) ∈ st_trace (snd r)
  /\ stays_within 1 (snd r)
  /\ settle r = Ok (VNum 1).
Proof.
  cbn zeta.
  set (A := onion (Shape "A" (0, 1) (1, 0))).
  set (B := Branch (fun c => is_undefined (field "result" c))
                   (Update (set_result (VNum 1)) Done) (Proceed Done)).
  set (C := onion (Shape "C" (0, 0) (0, 0))).
  assert (Hnever : EvProceed (List.length [A])
                     ∉ st_trace (snd (compose ([A] ++ B :: [C]) returns_seven
                                        empty_context [])))
    by by_decision.
  assert (Hq : Forall quiet_after_proceed [A])
    by (constructor; [exact I | constructor]).
  assert (Hret : EvReturn (List.length [A]) (VNum 1)
                   ∈ st_trace (snd (compose ([A] ++ B :: [C]) returns_seven
                                      empty_context [])))
    by by_decision.
  destruct (compose_short_circuit [A] [C] B returns_seven empty_context [] Hnever)
    as [H1 H2].
  split; [exact Hnever|]. split; [exact Hq|]. split; [exact Hret|].
  split; [exact H1|]. exact (H2 (VNum 1) Hq Hret).
Defined.

(** A try/catch scope around the two calls does not recover the
    violation. *)
Lemma compose_proceed_twice_witness :
  let A := TryCatch (Proceed (Proceed Done)) (fun _ => Done) Done in
  let r := compose [A] returns_seven empty_context [] in
  2 <= proceed_calls 0 (snd r)
  /\ terminal_calls (snd r) <= 1
  /\ fst r = Rejected (ProtocolViolation "next() called multiple times").
Proof.
  cbn zeta.
  set (A := TryCatch (Proceed (Proceed Done)) (fun _ => Done) Done).
  assert (Htwice : 2 <= proceed_calls 0 (snd (compose [A] returns_seven empty_context [])))
    by (vm_compute; constructor).
  destruct (compose_proceed_twice [A] returns_seven empty_context []) as [H1 H2].
  split; [exact Htwice|]. split; [exact H1|].
  apply H2. exists 0. exact Htwice.
Defined.

Lemma compose_failure_propagation_witness :
  let A := onion (Shape "A" (0, 0) (0, 0)) in
  let B := catcher (fun _ => VNum 1) in
  let C := onion (Shape "C" (1, 0) (0, 1)) in
  let E := Error "E" in
  Forall no_catch_around_proceed [A; C]
  /\ EvFail 2 E ∈ st_trace (snd (compose ([A; C] ++ []) throws_E empty_context []))
  /\ settle (compose ([A; C] ++ []) throws_E empty_context []) = Throw E
  /\ Forall quiet_after_proceed [A]
  /\ EvFail 3 E ∈ st_trace (snd (compose ([A] ++ [B; C]) throws_E empty_context []))
  /\ EvReturn 1 (VNum 1)
       ∈ st_trace (snd (compose ([A] ++ [B; C]) throws_E empty_context []))
  /\ EvFail 2 E ∈ st_trace (snd (compose ([A] ++ B :: [C]) throws_E empty_context []))
  /\ settle (compose ([A] ++ B :: [C]) throws_E empty_context []) = Ok (VNum 1).
Proof.
  cbn zeta.
  set (A := onion (Shape "A" (0, 0) (0, 0))).
  set (C := onion (Shape "C" (1, 0) (0, 1))).
  destruct (compose_failure_propagation throws_E empty_context [] (Error "E"))
    as (H1 & H2 & H3).
  assert (Hnc : Forall no_catch_around_proceed [A; C])
    by (constructor; [exact I | constructor; [exact I | constructor]]).
  assert (Hf2 : EvFail (List.length [A; C]) (Error "E")
                  ∈ st_trace (snd (compose ([A; C] ++ []) throws_E empty_context [])))
    by by_decision.
  assert (Hq : Forall quiet_after_proceed [A])
    by (constructor; [exact I | constructor]).
  assert (Hf3 : EvFail 3 (Error "E")
                  ∈ st_trace (snd (compose ([A] ++ [catcher (fun _ => VNum 1); C])
                                     throws_E empty_context [])))
    by by_decision.
  assert (Hret : EvReturn (List.length [A]) (VNum 1)
                   ∈ st_trace (snd (compose ([A] ++ [catcher (fun _ => VNum 1); C])
                                      throws_E empty_context [])))
    by by_decision.
  assert (Hf1 : EvFail (S (List.length [A])) (Error "E")
                  ∈ st_trace (snd (compose ([A] ++ catcher (fun _ => VNum 1) :: [C])
                                     throws_E empty_context [])))
    by by_decision.
  split; [exact Hnc|]. split; [exact Hf2|].
  split; [exact (H1 [A; C] [] Hnc Hf2)|].
  split; [exact Hq|]. split; [exact Hf3|]. split; [exact Hret|].
  split; [exact Hf1|].
  assert (Hsame : settle (compose ([A] ++ [catcher (fun _ => VNum 1); C])
                            throws_E empty_context []) = Ok (VNum 1))
    by (apply (H2 [A] [catcher (fun _ => VNum 1); C] 3 (VNum 1) Hq);
        [simpl; repeat constructor | exact Hf3 | exact Hret]).
  exact (H3 [A] [C] (fun _ => VNum 1) Hq eq_refl Hf1).
Defined.

Lemma withParams_named_round_trip_witness :
  let h := [Array false one_two] in
  args_getter empty_context = None
  /\ h !! 0 = Some (Array false one_two)
  /\ exists c',
       withParams ["a"; "b"] VUndefined (VFun 0) 0 empty_context h = (Ok c', h)
       /\ field "a" c' = VNum 1
       /\ field "b" c' = VNum 2
       /\ ctx_get "arguments" c' h = (Ok (VArr 1), h ++ [Array true one_two]).
Proof.
  cbn zeta. split; [reflexivity|]. split; [reflexivity|].
  destruct (withParams_named_round_trip VUndefined (VFun 0) 0 empty_context
              [Array false one_two] (Array false one_two)
              eq_refl eq_refl eq_refl) as (c' & H1 & H2 & H3 & H4 & _).
  exists c'. repeat split; assumption.
Defined.

Lemma objectHooks_rejects_non_function_witness :
  let obj := Object {["sayHi" := VNum 1]} (Root None) in
  let hooks : HookMap := [("sayHi", MiddlewareArray [])] in
  NoDup (map fst hooks)
  /\ exists method,
       method ∈ map fst hooks
       /\ is_function (property obj method) = false
       /\ objectHooks (fun fn _ => fn) (OfObject obj) (HookMapping hooks)
          = Throw (Error ("Can not apply hooks. '" +:+ method +:+ "' is not a function")).
Proof.
  cbn zeta.
  assert (Hnd : NoDup (map fst [("sayHi", MiddlewareArray [])])).
  { apply NoDup_cons. split; [apply not_elem_of_nil | apply NoDup_nil_2]. }
  split; [exact Hnd|].
  apply (objectHooks_rejects_non_function (fun fn _ => fn)
           (OfObject (Object {["sayHi" := VNum 1]} (Root None)))
           [("sayHi", MiddlewareArray [])] Hnd).
  exists "sayHi". split; [apply elem_of_cons; left; reflexivity | reflexivity].
Defined.

Lemma withParams_no_names_witness :
  let h := [Array false one_two] in
  args_getter empty_context = None
  /\ exists c',
       withParams [] (VObj 3) (VFun 0) 0 empty_context h = (Ok c', h)
       /\ ctx_get "arguments" c' h = (Ok (VArr 0), h)
       /\ args_getter c' = None
       /\ fields c' !! "self" = Some (VObj 3)
       /\ forall name : string,
            name <> "arguments" -> name <> "self" ->
            fields c' !! name = fields empty_context !! name.
Proof.
  cbn zeta. split; [reflexivity|].
  exact (withParams_no_names (VObj 3) (VFun 0) 0 empty_context
           [Array false one_two] eq_refl).
Defined.

(** [name] has a value and keeps it; [count] is missing and gets its
    default; [toString] reads the method every object inherits, so its
    default is not assigned. *)
Lemma withDefaults_fills_undefined_witness :
  let defaults := [("name", VStr "Dave"); ("count", VNum 3); ("toString", VNum 0)] in
  let c := new_context [("name", VStr "David")] in
  exists c' h',
    withDefaults defaults VUndefined (VFun 0) 0 c [] = (Ok c', h')
    /\ fields c' !! "name" = Some (VStr "David")
    /\ fields c' !! "count" = Some (VNum 3)
    /\ fields c' !! "toString" = None.
Proof.
  cbn zeta.
  set (defaults := [("name", VStr "Dave"); ("count", VNum 3); ("toString", VNum 0)]).
  set (c := new_context [("name", VStr "David")]).
  pose proof (withDefaults_fills_undefined defaults VUndefined (VFun 0) 0 c [])
    as (_ & Hkeep & _ & _ & Hrun).
  destruct (withDefaults defaults VUndefined (VFun 0) 0 c []) as [[c'|e] h'].
  - destruct Hrun as [-> Hset].
    exists (defaults_progress defaults (map fst defaults) c []), h'.
    split; [reflexivity|]. split; [|split].
    + rewrite (Hkeep "name" eq_refl). reflexivity.
    + rewrite (Hset "count"); [reflexivity | | reflexivity].
      apply elem_of_cons. right. apply elem_of_cons. left. reflexivity.
    + rewrite (Hkeep "toString" eq_refl). reflexivity.
  - destruct Hrun as (_ & Hnr & _). exfalso. apply Hnr.
    intros a H. discriminate H.
Defined.

(** * Further properties of base.ts and object.ts *)

(** ** Registration *)

Lemma CONTEXT_set_CONTEXT (t : registrations) (us : list ContextUpdater) :
  CONTEXT (set_CONTEXT t us) = Some us.
Proof. destruct t; reflexivity. Qed.

Lemma hooks_view_set_CONTEXT (t : registrations) (us : list ContextUpdater) :
  hooks_view (set_CONTEXT t us) = hooks_view t.
Proof. destruct t; reflexivity. Qed.

Lemma getContextUpdater_register_all (batches : list (list ContextUpdater)) :
  forall t : registrations,
    getContextUpdater (Some (register_all_updaters t batches))
    = getContextUpdater (Some t) ++ concat batches.
Proof.
  induction batches as [|b bs IH]; intros t.
  - simpl. rewrite app_nil_r. reflexivity.
  - unfold register_all_updaters in *. simpl foldl. rewrite IH.
    unfold getContextUpdater, registerContextUpdater.
    rewrite CONTEXT_set_CONTEXT. simpl. rewrite app_assoc. reflexivity.
Qed.

(** X1: the context updaters collected for a call are those registered on the
    receiver followed by those registered on the callable, each in the order
    of registration. *)
Theorem collectContextUpdaters_order
    (self fn : registrations) (on_self on_fn : list (list ContextUpdater))
    (args : loc) :
  collectContextUpdaters
    (Some (register_all_updaters self on_self))
    (Some (register_all_updaters fn on_fn)) args
  = (getContextUpdater (Some self) ++ concat on_self)
    ++ (getContextUpdater (Some fn) ++ concat on_fn).
Proof.
  unfold collectContextUpdaters.
  rewrite !getContextUpdater_register_all. reflexivity.
Qed.

(** X2: registering context updaters never changes the middleware registered on
    the same object, nor anything on its prototype chain. *)
Theorem registerContextUpdater_keeps_middleware
    (t : registrations) (batches : list (list ContextUpdater)) :
  hooks_view (register_all_updaters t batches) = hooks_view t.
Proof.
  revert t. induction batches as [|b bs IH]; intros t; [reflexivity|].
  unfold register_all_updaters in *. simpl foldl. rewrite IH.
  apply hooks_view_set_CONTEXT.
Qed.

(** X3: registering two lists one after the other is registering their
    concatenation. *)
Theorem registerMiddleware_twice (t : target) (first second : list Middleware) :
  registerMiddleware (registerMiddleware t first) second
  = registerMiddleware t (first ++ second).
Proof.
  unfold registerMiddleware.
  rewrite HOOKS_set_HOOKS. simpl default. rewrite app_assoc.
  destruct t; reflexivity.
Qed.

(** X4: registration on an object that inherits its middleware copies what it
    inherits at that moment in front of the new middleware and leaves the
    prototype alone; middleware registered on the prototype afterwards is not
    collected for the object. *)
Theorem registerMiddleware_inherits_snapshot
    (own : option (list Middleware)) (p : target) (mw later : list Middleware) :
  let inherited := getMiddleware (Some (Inherits own p)) in
  registerMiddleware (Inherits own p) mw = Inherits (Some (inherited ++ mw)) p
  /\ getMiddleware (Some (Inherits (Some (inherited ++ mw)) (registerMiddleware p later)))
     = inherited ++ mw.
Proof. cbn zeta. split; reflexivity. Qed.


(** ** Named parameters, in general *)

Lemma names_arguments_false (key : string) :
  key <> "arguments" -> names_arguments key = false.
Proof. intros Hne. unfold names_arguments. apply String.eqb_neq. exact Hne. Qed.

Lemma names_proto_false (key : string) :
  key <> "__proto__" -> names_proto key = false.
Proof. intros Hne. unfold names_proto. apply String.eqb_neq. exact Hne. Qed.

(** An assignment on a context whose [arguments] is an ordinary property
    does not throw; it stores the value unless it goes to the inherited
    setter of [__proto__]. *)
Lemma ctx_set_no_accessor (name : string) (v : value) (c : HookContext) :
  args_getter c = None ->
  exists c1,
    ctx_set true name v c = Ok c1
    /\ args_getter c1 = None
    /\ (forall k, k <> name -> fields c1 !! k = fields c !! k)
    /\ (name <> "__proto__" -> fields c1 !! name = Some v).
Proof.
  intros Hg. unfold ctx_set. rewrite Hg.
  rewrite bool_decide_eq_false_2 by (intros Hn; apply Hn; reflexivity).
  rewrite andb_false_r.
  destruct (names_proto name && bool_decide (fields c !! name = None)) eqn:Hp.
  - exists c. split; [reflexivity|]. split; [exact Hg|]. split; [reflexivity|].
    intros Hne. rewrite (names_proto_false name Hne) in Hp. discriminate Hp.
  - eexists. split; [reflexivity|]. split; [reflexivity|]. cbn [fields]. split.
    + intros k Hk. apply lookup_insert_ne. congruence.
    + intros _. apply lookup_insert_eq.
Qed.

Lemma forEach_param_plain (h : heap) (args : loc) (params : list string) :
  forall (index : nat) (c : HookContext),
    args_getter c = None ->
    exists c1,
      forEach_param params index h args c = Ok c1
      /\ args_getter c1 = None
      /\ (forall k, k ∉ params -> fields c1 !! k = fields c !! k)
      /\ ("__proto__" ∉ params -> NoDup params ->
          forall i p, params !! i = Some p ->
                      fields c1 !! p = Some (arr_index h args (index + i))).
Proof.
  induction params as [|name rest IH]; intros index c Hg; cbn [forEach_param].
  - exists c. split; [reflexivity|]. split; [exact Hg|]. split; [reflexivity|].
    intros _ _ i p Hi. rewrite lookup_nil in Hi. discriminate.
  - destruct (ctx_set_no_accessor name (arr_index h args index) c Hg)
      as (c0 & -> & Hg0 & Hother & Hname).
    destruct (IH (S index) c0 Hg0) as (c1 & Hrun & Hg1 & Hout & Hin).
    exists c1. split; [exact Hrun|]. split; [exact Hg1|]. split.
    + intros k Hk. rewrite not_elem_of_cons in Hk. destruct Hk as [Hne Hk].
      rewrite (Hout k Hk). apply Hother. exact Hne.
    + intros Hproto Hnd i p Hi. apply NoDup_cons in Hnd as [Hfresh Hnd].
      rewrite not_elem_of_cons in Hproto. destruct Hproto as [Hne Hproto].
      destruct i as [|j]; cbn in Hi.
      * injection Hi as <-. rewrite (Hout name Hfresh), Nat.add_0_r.
        apply Hname. congruence.
      * rewrite (Hin Hproto Hnd j p Hi). f_equal. f_equal. lia.
Qed.

Lemma existsb_names_arguments (params : list string) :
  existsb names_arguments params = bool_decide ("arguments" ∈ params).
Proof.
  induction params as [|p rest IH]; cbn [existsb].
  - rewrite bool_decide_eq_false_2 by apply not_elem_of_nil. reflexivity.
  - rewrite IH. unfold names_arguments.
    destruct (String.eqb_spec p "arguments") as [->|Hne]; cbn [orb].
    + rewrite bool_decide_eq_true_2 by (apply elem_of_cons; left; reflexivity).
      reflexivity.
    + apply bool_decide_ext. rewrite elem_of_cons. intuition congruence.
Qed.

Lemma map_by_position {A B : Type} (f : A -> B) (g : nat -> B) (l : list A) :
  forall start : nat,
    (forall i x, l !! i = Some x -> f x = g (start + i)) ->
    map f l = map g (seq start (List.length l)).
Proof.
  induction l as [|x rest IH]; intros start H; [reflexivity|].
  cbn [map List.length seq]. f_equal.
  - rewrite (H 0 x eq_refl), Nat.add_0_r. reflexivity.
  - apply IH. intros i y Hi. rewrite (H (S i) y Hi). f_equal. lia.
Qed.

Lemma withParams_names_run
    (params : list string) (self fn : value) (args : loc)
    (c : HookContext) (h : heap) :
  args_getter c = None ->
  params <> [] ->
  NoDup params ->
  "arguments" ∉ params ->
  "self" ∉ params ->
  "__proto__" ∉ params ->
  exists c',
    withParams params self fn args c h = (Ok c', h)
    /\ args_getter c'
       = Some (Accessor params (bool_decide (fields c !! "arguments" ≠ None)))
    /\ (forall i p, params !! i = Some p ->
                    fields c' !! p = Some (arr_index h args i))
    /\ ctx_get "arguments" c' h
       = (Ok (VArr (List.length h)),
          h ++ [Array true (positional h args (List.length params))])
    /\ fields c' !! "self" = (if truthy self then Some self else fields c !! "self")
    /\ (forall k, k ∉ params -> k <> "arguments" -> k <> "self" ->
                  fields c' !! k = fields c !! k).
Proof.
  intros Hg Hne Hnd Hargs Hself Hproto.
  destruct (forEach_param_plain h args params 0 c Hg) as (c1 & Hrun & Hg1 & Hout & Hin).
  specialize (Hin Hproto Hnd).
  unfold withParams, bind, lift, ret. rewrite Hrun.
  assert (Hlen : (0 <? List.length params)%nat = true).
  { destruct params; [contradiction|reflexivity]. }
  rewrite Hlen. unfold define_arguments_getter. rewrite Hg1.
  rewrite (Hout "arguments" Hargs).
  set (a := Accessor params (bool_decide (fields c !! "arguments" ≠ None))).
  set (c2 := Ctx (delete "arguments" (fields c1)) (Some a)).
  assert (Hc2 : forall k, k <> "arguments" -> fields c2 !! k = fields c1 !! k).
  { intros k Hk. subst c2. cbn [fields]. apply lookup_delete_ne. congruence. }
  assert (Hfinal : exists c',
             (if truthy self then ctx_set true "self" self c2 else Ok c2) = Ok c'
             /\ args_getter c' = Some a
             /\ (forall k, k <> "self" -> fields c' !! k = fields c2 !! k)
             /\ fields c' !! "self"
                = (if truthy self then Some self else fields c2 !! "self")).
  { destruct (truthy self).
    - rewrite ctx_set_other by reflexivity. eexists. split; [reflexivity|].
      split; [reflexivity|]. cbn [fields]. split.
      + intros k Hk. apply lookup_insert_ne. congruence.
      + apply lookup_insert_eq.
    - exists c2. repeat split. }
  destruct Hfinal as (c' & -> & Hg' & Hother & Hs).
  exists c'. split; [reflexivity|]. split; [exact Hg'|].
  assert (Hfield : forall i p, params !! i = Some p ->
                               fields c' !! p = Some (arr_index h args i)).
  { intros i p Hi.
    assert (Hp : p ∈ params) by (apply list_elem_of_lookup; exists i; exact Hi).
    rewrite Hother by (intros ->; contradiction).
    rewrite Hc2 by (intros ->; contradiction).
    exact (Hin i p Hi). }
  split; [exact Hfield|]. split; [|split].
  - unfold ctx_get. change (names_arguments "arguments") with true. cbv iota.
    rewrite Hg'. subst a. cbn [getter_params]. rewrite existsb_names_arguments.
    rewrite bool_decide_eq_false_2 by exact Hargs.
    unfold alloc, positional. do 4 f_equal.
    apply (map_by_position (fun p => field p c') (arr_index h args) params 0).
    intros i p Hi. unfold field. rewrite (Hfield i p Hi). reflexivity.
  - rewrite Hs. destruct (truthy self); [reflexivity|].
    rewrite Hc2 by discriminate. apply Hout. exact Hself.
  - intros k Hk Ha Hsf. rewrite Hother by exact Hsf. rewrite Hc2 by exact Ha.
    apply Hout, Hk.
Qed.

(** X5: for distinct parameter names, none of them [arguments], [self] or
    [__proto__], on a context whose [arguments] is an ordinary property: the
    updater stores the argument at each position under the name at that
    position, [undefined] where the call has fewer arguments than names;
    [arguments] becomes an accessor, configurable exactly when the context
    had an [arguments] property before; reading [context.arguments] then
    yields a fresh frozen array of exactly as many elements as there are
    names, so surplus arguments are dropped; [self] is set for a truthy
    receiver, and no other field changes. *)
Theorem withParams_names
    (params : list string) (self fn : value) (args : loc)
    (c : HookContext) (h : heap) :
  args_getter c = None ->
  params <> [] ->
  NoDup params ->
  "arguments" ∉ params ->
  "self" ∉ params ->
  "__proto__" ∉ params ->
  exists c',
    withParams params self fn args c h = (Ok c', h)
    /\ args_getter c'
       = Some (Accessor params (bool_decide (fields c !! "arguments" ≠ None)))
    /\ (forall i p, params !! i = Some p -> field p c' = arr_index h args i)
    /\ ctx_get "arguments" c' h
       = (Ok (VArr (List.length h)),
          h ++ [Array true (positional h args (List.length params))])
    /\ fields c' !! "self" = (if truthy self then Some self else fields c !! "self")
    /\ (forall k, k ∉ params -> k <> "arguments" -> k <> "self" ->
                  fields c' !! k = fields c !! k).
Proof.
  intros Hg Hne Hnd Hargs Hself Hproto.
  destruct (withParams_names_run params self fn args c h Hg Hne Hnd Hargs Hself Hproto)
    as (c' & Hrun & Hg' & Hown & Hread & Hs & Hother).
  exists c'. split; [exact Hrun|]. split; [exact Hg'|]. split.
  - intros i p Hi. unfold field. rewrite (Hown i p Hi). reflexivity.
  - split; [exact Hread|]. split; [exact Hs | exact Hother].
Qed.

Lemma forEach_param_accessor (h : heap) (args : loc) (params : list string) :
  forall (index : nat) (c : HookContext),
    (exists msg, forEach_param params index h args c = Throw (TypeError msg))
    \/ (exists c1, forEach_param params index h args c = Ok c1
                   /\ args_getter c1 = args_getter c).
Proof.
  induction params as [|name rest IH]; intros index c; cbn [forEach_param].
  - right. exists c. split; reflexivity.
  - unfold ctx_set.
    destruct (names_arguments name && bool_decide (args_getter c ≠ None)).
    + left. eexists. reflexivity.
    + destruct (names_proto name && bool_decide (fields c !! name = None)).
      * apply IH.
      * destruct (IH (S index)
                    (Ctx (<[name := arr_index h args index]> (fields c)) (args_getter c)))
          as [Hthrow|(c1 & Hrun & Hg)].
        -- left. exact Hthrow.
        -- right. exists c1. split; [exact Hrun | exact Hg].
Qed.

Lemma forEach_param_other_names (h : heap) (args : loc) (params : list string) :
  "arguments" ∉ params ->
  forall (index : nat) (c : HookContext),
    exists c1, forEach_param params index h args c = Ok c1
               /\ args_getter c1 = args_getter c.
Proof.
  induction params as [|name rest IH]; intros Hnin index c; cbn [forEach_param].
  - exists c. split; reflexivity.
  - rewrite not_elem_of_cons in Hnin. destruct Hnin as [Hne Hnin].
    unfold ctx_set. rewrite (names_arguments_false name) by congruence. cbn [andb].
    destruct (names_proto name && bool_decide (fields c !! name = None)).
    + apply IH. exact Hnin.
    + destruct (IH Hnin (S index)
                  (Ctx (<[name := arr_index h args index]> (fields c)) (args_getter c)))
        as (c1 & Hrun & Hg).
      exists c1. split; [exact Hrun | exact Hg].
Qed.

(** X6: on a context whose [arguments] is an accessor: an updater made by
    [withParams] without names throws a TypeError, for it assigns the
    getter-only property; one with names throws a TypeError when the
    accessor is not configurable, which is how [withParams] creates it on a
    context without an [arguments] property; and when the accessor is
    configurable, as it is when it has replaced an ordinary [arguments]
    property, an updater with names other than [arguments] succeeds and
    installs its own getter. *)
Theorem withParams_after_names
    (params : list string) (self fn : value) (args : loc)
    (c : HookContext) (h : heap) (a : accessor) :
  args_getter c = Some a ->
  (params = [] \/ getter_configurable a = false ->
   exists msg, withParams params self fn args c h = (Throw (TypeError msg), h))
  /\ (params <> [] -> getter_configurable a = true -> "arguments" ∉ params ->
      exists c',
        withParams params self fn args c h = (Ok c', h)
        /\ args_getter c' = Some (Accessor params true)).
Proof.
  intros Hg. split.
  - intros Hcase. unfold withParams, bind, lift, ret.
    destruct (forEach_param_accessor h args params 0 c) as [[msg ->]|(c1 & -> & Hg1)].
    + exists msg. reflexivity.
    + destruct params as [|p rest].
      * change (0 <? List.length (@nil string))%nat with false. cbv iota.
        unfold ctx_set. change (names_arguments "arguments") with true.
        rewrite Hg1, Hg, bool_decide_eq_true_2 by discriminate. cbn [andb].
        eexists. reflexivity.
      * change (0 <? List.length (p :: rest))%nat with true. cbv iota.
        destruct Hcase as [Hnil|Hnc]; [discriminate Hnil|].
        unfold define_arguments_getter. rewrite Hg1, Hg, Hnc.
        eexists. reflexivity.
  - intros Hne Hconf Hargs. unfold withParams, bind, lift, ret.
    destruct (forEach_param_other_names h args params Hargs 0 c) as (c1 & -> & Hg1).
    assert (Hlen : (0 <? List.length params)%nat = true).
    { destruct params; [contradiction|reflexivity]. }
    rewrite Hlen. unfold define_arguments_getter. rewrite Hg1, Hg, Hconf.
    destruct (truthy self).
    + rewrite ctx_set_other by reflexivity. eexists. split; reflexivity.
    + eexists. split; reflexivity.
Qed.

(** X7: a parameter called [arguments] is accepted by the updater, but the
    accessor it installs can never be read: its getter reads
    [this.arguments], which is the accessor itself. *)
Theorem withParams_arguments_name
    (params : list string) (self fn : value) (args : loc)
    (c : HookContext) (h : heap) :
  args_getter c = None ->
  "arguments" ∈ params ->
  exists c',
    withParams params self fn args c h = (Ok c', h)
    /\ forall h' : heap,
         ctx_get "arguments" c' h'
         = (Throw (RangeError "Maximum call stack size exceeded"), h').
Proof.
  intros Hg Hin.
  destruct (forEach_param_plain h args params 0 c Hg) as (c1 & Hrun & Hg1 & _).
  unfold withParams, bind, lift, ret. rewrite Hrun.
  assert (Hlen : (0 <? List.length params)%nat = true).
  { destruct params; [|reflexivity]. exfalso. exact (not_elem_of_nil _ Hin). }
  rewrite Hlen. unfold define_arguments_getter. rewrite Hg1.
  assert (Hread : forall (c' : HookContext) (h' : heap) (b : bool),
             args_getter c' = Some (Accessor params b) ->
             ctx_get "arguments" c' h'
             = (Throw (RangeError "Maximum call stack size exceeded"), h')).
  { intros c' h' b Hc'. unfold ctx_get. change (names_arguments "arguments") with true.
    cbv iota. rewrite Hc'. cbn [getter_params]. rewrite existsb_names_arguments.
    rewrite bool_decide_eq_true_2 by exact Hin. reflexivity. }
  destruct (truthy self).
  - rewrite ctx_set_other by reflexivity. eexists. split; [reflexivity|].
    intros h'. eapply Hread. reflexivity.
  - eexists. split; [reflexivity|]. intros h'. eapply Hread. reflexivity.
Qed.

(** ** Props and defaults *)

Lemma assign_props_spec (props : list (string * value)) (keys : list string) :
  forall c : HookContext,
    args_getter c = None \/ "arguments" ∉ keys ->
    "__proto__" ∉ keys ->
    exists c',
      assign_props props keys c = Ok c'
      /\ args_getter c' = args_getter c
      /\ forall key : string,
           fields c' !! key
           = if bool_decide (key ∈ keys)
             then Some (prop_of props key)
             else fields c !! key.
Proof.
  induction keys as [|k rest IH]; intros c Hok Hproto; cbn [assign_props].
  - exists c. split; [reflexivity|]. split; [reflexivity|]. intros key.
    rewrite bool_decide_eq_false_2 by apply not_elem_of_nil. reflexivity.
  - rewrite not_elem_of_cons in Hproto. destruct Hproto as [Hk Hproto].
    assert (Hkp : names_proto k = false) by (apply names_proto_false; congruence).
    assert (Hset : ctx_set true k (prop_of props k) c
                   = Ok (Ctx (<[k := prop_of props k]> (fields c)) (args_getter c))).
    { destruct Hok as [Hg|Hnin].
      - rewrite (ctx_set_plain _ _ _ _ Hg Hkp), Hg. reflexivity.
      - apply ctx_set_other; [|exact Hkp]. apply names_arguments_false. intros ->.
        apply Hnin, elem_of_cons. left. reflexivity. }
    rewrite Hset.
    destruct (IH (Ctx (<[k := prop_of props k]> (fields c)) (args_getter c)))
      as (c' & Hrun & Hg' & Hf).
    { destruct Hok as [Hg|Hnin]; [left; exact Hg | right].
      intros Hin. apply Hnin, elem_of_cons. right. exact Hin. }
    { exact Hproto. }
    exists c'. split; [exact Hrun|]. split; [exact Hg'|].
    intros key. rewrite Hf. cbn [fields].
    destruct (decide (key = k)) as [->|Hne].
    + rewrite (bool_decide_eq_true_2 (k ∈ k :: rest))
        by (apply elem_of_cons; left; reflexivity).
      rewrite lookup_insert_eq. destruct (bool_decide (k ∈ rest)); reflexivity.
    + rewrite lookup_insert_ne by congruence.
      rewrite (bool_decide_ext (key ∈ k :: rest) (key ∈ rest)); [reflexivity|].
      rewrite elem_of_cons. intuition congruence.
Qed.

(** X8: the updater made by [withProps] overwrites every field named in the
    props with the value given there, whatever the field held, and leaves the
    other fields alone; it needs [arguments] to be an ordinary property or
    not to be named in the props, and the props to have no key [__proto__],
    whose assignment goes to the inherited setter. *)
Theorem withProps_overwrites
    (props : list (string * value)) (self fn : value) (args : loc)
    (c : HookContext) (h : heap) :
  args_getter c = None \/ "arguments" ∉ map fst props ->
  "__proto__" ∉ map fst props ->
  exists c',
    withProps props self fn args c h = (Ok c', h)
    /\ args_getter c' = args_getter c
    /\ forall key : string,
         (key ∈ map fst props -> fields c' !! key = Some (prop_of props key))
         /\ (key ∉ map fst props -> fields c' !! key = fields c !! key).
Proof.
  intros Hok Hproto. unfold withProps, lift.
  destruct (assign_props_spec props (map fst props) c Hok Hproto)
    as (c' & -> & Hg & Hf).
  exists c'. split; [reflexivity|]. split; [exact Hg|].
  intros key. rewrite Hf. split; intros Hk.
  - rewrite bool_decide_eq_true_2 by exact Hk. reflexivity.
  - rewrite bool_decide_eq_false_2 by exact Hk. reflexivity.
Qed.

Lemma assign_props_accessor (props : list (string * value)) (keys : list string) :
  forall c : HookContext,
    args_getter c <> None ->
    "arguments" ∈ keys ->
    exists msg, assign_props props keys c = Throw (TypeError msg).
Proof.
  induction keys as [|k rest IH]; intros c Hg Hin; cbn [assign_props].
  - exfalso. exact (not_elem_of_nil _ Hin).
  - assert (Hrest : names_arguments k = false -> "arguments" ∈ rest).
    { intros Hk. apply elem_of_cons in Hin as [<-|Hin]; [discriminate Hk | exact Hin]. }
    unfold ctx_set. destruct (names_arguments k) eqn:Hk; cbn [andb].
    + rewrite bool_decide_eq_true_2 by exact Hg. eexists. reflexivity.
    + destruct (names_proto k && bool_decide (fields c !! k = None)).
      * apply (IH c Hg). apply Hrest. reflexivity.
      * apply (IH (Ctx (<[k := prop_of props k]> (fields c)) (args_getter c)) Hg).
        apply Hrest. reflexivity.
Qed.

(** X9: props that name [arguments] cannot be merged into a context whose
    [arguments] is the getter-only accessor: the updater throws a
    TypeError. *)
Theorem withProps_arguments_accessor_throws
    (props : list (string * value)) (self fn : value) (args : loc)
    (c : HookContext) (h : heap) :
  args_getter c <> None ->
  "arguments" ∈ map fst props ->
  exists msg, withProps props self fn args c h = (Throw (TypeError msg), h).
Proof.
  intros Hg Hin. unfold withProps, lift.
  destruct (assign_props_accessor props (map fst props) c Hg Hin) as [msg ->].
  exists msg. reflexivity.
Qed.

Lemma reads_undefined_ext (key : string) (c c' : HookContext) :
  args_getter c' = args_getter c ->
  fields c' !! key = fields c !! key ->
  reads_undefined key c' = reads_undefined key c.
Proof.
  intros Hg Hf. unfold reads_undefined, field. rewrite Hg, Hf. reflexivity.
Qed.

Lemma readable_same_getter (c c' : HookContext) :
  args_getter c' = args_getter c -> readable c -> readable c'.
Proof. intros Hg Hr a Ha. apply Hr. rewrite <- Hg. exact Ha. Qed.

(** X10: applying the same defaults a second time changes nothing. *)
Theorem withDefaults_idempotent
    (defaults : list (string * value)) (self fn : value) (args : loc)
    (c : HookContext) (h : heap) :
  readable c ->
  exists c' h' h'',
    withDefaults defaults self fn args c h = (Ok c', h')
    /\ withDefaults defaults self fn args c' h' = (Ok c', h'').
Proof.
  intros Hr. unfold withDefaults.
  destruct (defaults_loop_spec defaults (map fst defaults) c h Hr)
    as (c' & h' & Hrun & Hg & Hf).
  destruct (defaults_loop_spec defaults (map fst defaults) c' h'
              (readable_same_getter c c' Hg Hr))
    as (c'' & h'' & Hrun' & Hg' & Hf').
  exists c', h', h''. split; [exact Hrun|]. rewrite Hrun'. do 2 f_equal.
  destruct c'' as [fs'' g''], c' as [fs' g']. cbn [fields args_getter] in *.
  f_equal; [|exact Hg'].
  apply map_eq. intros key. rewrite Hf'.
  destruct (bool_decide (key ∈ map fst defaults)) eqn:Hin; [|reflexivity].
  cbn [andb].
  destruct (reads_undefined key (Ctx fs' g')) eqn:Hu'; [|reflexivity].
  specialize (Hf key). rewrite Hin in Hf. cbn [andb] in Hf.
  destruct (reads_undefined key c) eqn:Hu; [symmetry; exact Hf|].
  rewrite (reads_undefined_ext key c (Ctx fs' g') Hg Hf) in Hu'. congruence.
Qed.

(** X11: defaults applied after props never replace a value the props gave,
    unless that value is [undefined]; the props have no key [__proto__]. *)
Theorem withProps_then_withDefaults
    (props defaults : list (string * value)) (self fn : value) (args : loc)
    (c : HookContext) (h : heap) :
  readable c ->
  args_getter c = None \/ "arguments" ∉ map fst props ->
  "__proto__" ∉ map fst props ->
  exists c1 c2 h2,
    withProps props self fn args c h = (Ok c1, h)
    /\ withDefaults defaults self fn args c1 h = (Ok c2, h2)
    /\ forall key : string,
         key ∈ map fst props ->
         is_undefined (prop_of props key) = false ->
         fields c2 !! key = Some (prop_of props key).
Proof.
  intros Hr Hok Hproto. unfold withProps, withDefaults, lift.
  destruct (assign_props_spec props (map fst props) c Hok Hproto)
    as (c1 & -> & Hg1 & Hf1).
  destruct (defaults_loop_spec defaults (map fst defaults) c1 h
              (readable_same_getter c c1 Hg1 Hr))
    as (c2 & h2 & Hrun & _ & Hf2).
  exists c1, c2, h2. split; [reflexivity|]. split; [exact Hrun|].
  intros key Hin Hdef. rewrite Hf2.
  assert (H1 : fields c1 !! key = Some (prop_of props key)).
  { rewrite Hf1, bool_decide_eq_true_2 by exact Hin. reflexivity. }
  assert (Hu : reads_undefined key c1 = false).
  { unfold reads_undefined, field. rewrite H1.
    destruct (names_arguments key && bool_decide (args_getter c1 ≠ None));
      [reflexivity | exact Hdef]. }
  rewrite Hu, andb_false_r. exact H1.
Qed.

(** X12: defaults applied after named parameters (none of them called
    [arguments], [self] or [__proto__]) fill in the parameters the call
    left out or passed as [undefined], keep the ones it passed, and show up
    in [context.arguments], which is computed from the named fields. *)
Theorem withParams_then_withDefaults
    (params : list string) (defaults : list (string * value))
    (self fn : value) (args : loc) (c : HookContext) (h : heap) :
  args_getter c = None ->
  params <> [] ->
  NoDup params ->
  "arguments" ∉ params ->
  "self" ∉ params ->
  "__proto__" ∉ params ->
  exists c1 c2 h2,
    withParams params self fn args c h = (Ok c1, h)
    /\ withDefaults defaults self fn args c1 h = (Ok c2, h2)
    /\ (forall i p,
          params !! i = Some p ->
          field p c2
          = if bool_decide (p ∈ map fst defaults) && is_undefined (arr_index h args i)
            then prop_of defaults p
            else arr_index h args i)
    /\ ctx_get "arguments" c2 h2
       = (Ok (VArr (List.length h2)),
          h2 ++ [Array true (map (fun p => field p c2) params)]).
Proof.
  intros Hg Hne Hnd Hargs Hself Hproto.
  destruct (withParams_names_run params self fn args c h Hg Hne Hnd Hargs Hself Hproto)
    as (c1 & Hrun1 & Hg1 & Hfield & _).
  assert (Hr1 : readable c1).
  { intros a Ha. rewrite Hg1 in Ha. injection Ha as <-. cbn [getter_params].
    rewrite existsb_names_arguments. apply bool_decide_eq_false_2. exact Hargs. }
  unfold withDefaults.
  destruct (defaults_loop_spec defaults (map fst defaults) c1 h Hr1)
    as (c2 & h2 & Hrun2 & Hg2 & Hf2).
  exists c1, c2, h2. split; [exact Hrun1|]. split; [exact Hrun2|]. split.
  - intros i p Hi.
    assert (Hp : p <> "arguments").
    { intros ->. apply Hargs. apply list_elem_of_lookup_2 with i. exact Hi. }
    pose proof (Hfield i p Hi) as Hw.
    assert (Hu : reads_undefined p c1 = is_undefined (arr_index h args i)).
    { unfold reads_undefined. rewrite (names_arguments_false p Hp). cbn [andb].
      unfold field. rewrite Hw. reflexivity. }
    unfold field at 1. rewrite Hf2, Hu.
    destruct (bool_decide (p ∈ map fst defaults) && is_undefined (arr_index h args i));
      [reflexivity|].
    rewrite Hw. reflexivity.
  - unfold ctx_get. change (names_arguments "arguments") with true. cbv iota.
    rewrite Hg2, Hg1. cbn [getter_params]. rewrite existsb_names_arguments.
    rewrite bool_decide_eq_false_2 by exact Hargs. reflexivity.
Qed.

(** ** Hook settings *)

(** X13: options that have been normalized stay as they are when they are
    written back as a settings object and normalized again. *)
Theorem normalizeOptions_stable (opts : HookSettings) :
  normalizeOptions (as_settings (normalizeOptions opts)) = normalizeOptions opts.
Proof.
  destruct opts as [mw|[m|] [[u|us]|] [col|]]; reflexivity.
Qed.

(** ** Object hooks, further *)

Section ObjectHooksFurther.

Variable functionHooks : value -> HookSettings -> value.

Lemma reduce_methods_wraps (hooks : HookMap) (keys : list string) :
  forall result : object,
    NoDup keys ->
    (forall k, k ∈ keys -> k ∈ map fst hooks) ->
    (forall k, k ∈ keys -> is_function (property result k) = true) ->
    exists result',
      reduce_methods functionHooks hooks keys result = Ok result'
      /\ registration result' = registration result
      /\ (forall k, k ∉ keys -> props result' !! k = props result !! k)
      /\ (forall k setting,
            k ∈ keys -> settings_of hooks k = Some setting ->
            props result' !! k
            = Some (wrapped_method functionHooks setting k (property result k))).
Proof.
  induction keys as [|k0 rest IH]; intros result Hnd Hsub Hfn; cbn [reduce_methods].
  - exists result. split; [reflexivity|]. split; [reflexivity|]. split; [reflexivity|].
    intros k setting Hk. exfalso. exact (not_elem_of_nil _ Hk).
  - apply NoDup_cons in Hnd as [Hk0 Hnd].
    destruct (settings_of_key hooks k0) as [setting0 Hs0].
    { apply Hsub, elem_of_cons. left. reflexivity. }
    rewrite Hs0. rewrite (Hfn k0) by (apply elem_of_cons; left; reflexivity).
    cbn [negb]. cbv iota.
    set (result1 := Object _ _).
    assert (Hsame : forall x, x <> k0 -> property result1 x = property result x).
    { intros x Hx. unfold property. subst result1. cbn [props].
      rewrite lookup_insert_ne by congruence. reflexivity. }
    destruct (IH result1) as (result' & Hrun & Hreg & Hout & Hin).
    + exact Hnd.
    + intros x Hx. apply Hsub, elem_of_cons. right. exact Hx.
    + intros x Hx. rewrite Hsame by (intros ->; contradiction).
      apply Hfn, elem_of_cons. right. exact Hx.
    + exists result'. split; [exact Hrun|]. split; [exact Hreg|]. split.
      * intros k Hk. rewrite not_elem_of_cons in Hk. destruct Hk as [Hne Hk].
        rewrite (Hout k Hk). subst result1. cbn [props].
        apply lookup_insert_ne. congruence.
      * intros k setting Hk Hs. apply elem_of_cons in Hk as [->|Hk].
        -- rewrite (Hout k0 Hk0). subst result1. cbn [props].
           rewrite lookup_insert_eq. rewrite Hs0 in Hs. injection Hs as <-.
           reflexivity.
        -- rewrite (Hin k setting Hk Hs). rewrite Hsame by (intros ->; contradiction).
           reflexivity.
Qed.

Lemma reduce_methods_first_offender (hooks : HookMap) (method : string)
    (after : list string) :
  forall (before : list string) (result : object),
    NoDup (before ++ method :: after) ->
    (forall k, k ∈ before ++ method :: after -> k ∈ map fst hooks) ->
    (forall k, k ∈ before -> is_function (property result k) = true) ->
    is_function (property result method) = false ->
    reduce_methods functionHooks hooks (before ++ method :: after) result
    = Throw (not_a_function method).
Proof.
  induction before as [|k0 rest IH]; intros result Hnd Hsub Hfn Hbad;
    cbn [app reduce_methods].
  - destruct (settings_of_key hooks method) as [setting ->].
    { apply Hsub, elem_of_cons. left. reflexivity. }
    rewrite Hbad. reflexivity.
  - cbn [app] in Hnd, Hsub. apply NoDup_cons in Hnd as [Hk0 Hnd].
    destruct (settings_of_key hooks k0) as [setting0 ->].
    { apply Hsub, elem_of_cons. left. reflexivity. }
    rewrite (Hfn k0) by (apply elem_of_cons; left; reflexivity).
    cbn [negb]. cbv iota.
    set (result1 := Object _ _).
    assert (Hsame : forall x, x <> k0 -> property result1 x = property result x).
    { intros x Hx. unfold property. subst result1. cbn [props].
      rewrite lookup_insert_ne by congruence. reflexivity. }
    apply IH.
    + exact Hnd.
    + intros x Hx. apply Hsub, elem_of_cons. right. exact Hx.
    + intros x Hx. rewrite Hsame.
      * apply Hfn, elem_of_cons. right. exact Hx.
      * intros ->. apply Hk0, elem_of_app. left. exact Hx.
    + rewrite Hsame; [exact Hbad|].
      intros ->. apply Hk0, elem_of_app. right. apply elem_of_cons. left. reflexivity.
Qed.

End ObjectHooksFurther.

(** X14: when every method named in the hook map is a function, [objectHooks]
    succeeds: each named method is replaced by its wrapped original, every
    other property and the middleware registration of the object stay as
    they were. *)
Theorem objectHooks_wraps_named_methods
    (functionHooks : value -> HookSettings -> value)
    (_obj : receiver) (hooks : HookMap) :
  NoDup (map fst hooks) ->
  all_functions hooks (prototype_or_self _obj) ->
  exists result,
    objectHooks functionHooks _obj (HookMapping hooks) = Ok result
    /\ registration result = registration (prototype_or_self _obj)
    /\ (forall k, k ∉ map fst hooks ->
                  props result !! k = props (prototype_or_self _obj) !! k)
    /\ (forall k setting,
          k ∈ map fst hooks -> settings_of hooks k = Some setting ->
          props result !! k
          = Some (wrapped_method functionHooks setting k
                    (property (prototype_or_self _obj) k))).
Proof.
  intros Hnd Hfn. unfold objectHooks.
  apply reduce_methods_wraps; [exact Hnd | intros k Hk; exact Hk | exact Hfn].
Qed.

(** X15: the error of [objectHooks] names the first method of the hook map, in
    the order of its keys, that is not a function on the object. *)
Theorem objectHooks_reports_first_non_function
    (functionHooks : value -> HookSettings -> value)
    (_obj : receiver) (before after : HookMap)
    (method : string) (setting : HookSettings) :
  NoDup (map fst (before ++ (method, setting) :: after)) ->
  all_functions before (prototype_or_self _obj) ->
  is_function (property (prototype_or_self _obj) method) = false ->
  objectHooks functionHooks _obj (HookMapping (before ++ (method, setting) :: after))
  = Throw (Error ("Can not apply hooks. '" +:+ method +:+ "' is not a function")).
Proof.
  intros Hnd Hfn Hbad. unfold objectHooks.
  rewrite map_app in *. cbn [map fst] in *.
  apply reduce_methods_first_offender.
  - exact Hnd.
  - intros k Hk. rewrite map_app. exact Hk.
  - exact Hfn.
  - exact Hbad.
Qed.

(** X16: given an array and an object, or a class with its prototype
    object, [objectHooks] wraps no method: it appends the array to the
    middleware registered on the object, or on the prototype when given a
    class, and leaves the properties as they are. *)
Theorem objectHooks_array_registers
    (functionHooks : value -> HookSettings -> value)
    (_obj : receiver) (mw : list Middleware) :
  exists result,
    objectHooks functionHooks _obj (HookArray mw) = Ok result
    /\ props result = props (prototype_or_self _obj)
    /\ getMiddleware (Some (registration result))
       = getMiddleware (Some (registration (prototype_or_self _obj))) ++ mw.
Proof.
  unfold objectHooks. eexists. split; [reflexivity|]. split; [reflexivity|].
  cbn [registration]. apply getMiddleware_registerMiddleware.
Qed.

(** ** The further properties at concrete inputs *)

Lemma withParams_names_witness :
  let h := [Array false [VNum 1; VNum 2; VNum 3]] in
  NoDup ["id"; "user"]
  /\ exists c',
       withParams ["id"; "user"] VUndefined (VFun 0) 0 empty_context h = (Ok c', h)
       /\ args_getter c' = Some (Accessor ["id"; "user"] false)
       /\ field "id" c' = VNum 1
       /\ field "user" c' = VNum 2
       /\ ctx_get "arguments" c' h = (Ok (VArr 1), h ++ [Array true [VNum 1; VNum 2]]).
Proof.
  cbn zeta.
  assert (Hnd : NoDup ["id"; "user"]) by by_decision.
  split; [exact Hnd|].
  destruct (withParams_names ["id"; "user"] VUndefined (VFun 0) 0 empty_context
              [Array false [VNum 1; VNum 2; VNum 3]] eq_refl)
    as (c' & Hrun & Hg & Hfield & Hread & _).
  - discriminate.
  - exact Hnd.
  - by_decision.
  - by_decision.
  - by_decision.
  - exists c'. split; [exact Hrun|]. split; [exact Hg|].
    split; [exact (Hfield 0 "id" eq_refl)|].
    split; [exact (Hfield 1 "user" eq_refl) | exact Hread].
Defined.

(** [withParams('x')] on a new context leaves an accessor that cannot be
    redefined, so [withParams('a', 'b')] throws; after [withParams()] the
    accessor that [withParams('a')] installs replaces an ordinary property,
    and [withParams('b')] succeeds. *)
Lemma withParams_after_names_witness :
  let h := [Array false one_two] in
  let c1 := Ctx {["x" := VNum 1]} (Some (Accessor ["x"] false)) in
  let c3 := Ctx {["a" := VNum 1]} (Some (Accessor ["a"] true)) in
  withParams ["x"] VUndefined (VFun 0) 0 empty_context h = (Ok c1, h)
  /\ (exists msg,
        withParams ["a"; "b"] VUndefined (VFun 0) 0 c1 h = (Throw (TypeError msg), h))
  /\ (exists c2,
        withParams [] VUndefined (VFun 0) 0 empty_context h = (Ok c2, h)
        /\ withParams ["a"] VUndefined (VFun 0) 0 c2 h = (Ok c3, h))
  /\ exists c4,
       withParams ["b"] VUndefined (VFun 0) 0 c3 h = (Ok c4, h)
       /\ args_getter c4 = Some (Accessor ["b"] true).
Proof.
  cbn zeta. split; [reflexivity|]. split; [|split].
  - apply (proj1 (withParams_after_names ["a"; "b"] VUndefined (VFun 0) 0
                    (Ctx {["x" := VNum 1]} (Some (Accessor ["x"] false)))
                    [Array false one_two] (Accessor ["x"] false) eq_refl)).
    right. reflexivity.
  - eexists. split; reflexivity.
  - apply (proj2 (withParams_after_names ["b"] VUndefined (VFun 0) 0
                    (Ctx {["a" := VNum 1]} (Some (Accessor ["a"] true)))
                    [Array false one_two] (Accessor ["a"] true) eq_refl)).
    + discriminate.
    + reflexivity.
    + by_decision.
Defined.

Lemma withParams_arguments_name_witness :
  "arguments" ∈ ["arguments"]
  /\ exists c',
       withParams ["arguments"] VUndefined (VFun 0) 0 empty_context [] = (Ok c', [])
       /\ forall h' : heap,
            ctx_get "arguments" c' h'
            = (Throw (RangeError "Maximum call stack size exceeded"), h').
Proof.
  assert (Hin : "arguments" ∈ ["arguments"])
    by (apply elem_of_cons; left; reflexivity).
  split; [exact Hin|].
  exact (withParams_arguments_name ["arguments"] VUndefined (VFun 0) 0
           empty_context [] eq_refl Hin).
Defined.

Lemma withProps_overwrites_witness :
  let c := new_context [("method", VStr "old"); ("kept", VNum 1)] in
  exists c',
    withProps [("method", VStr "get")] VUndefined (VFun 0) 0 c [] = (Ok c', [])
    /\ fields c' !! "method" = Some (VStr "get")
    /\ fields c' !! "kept" = fields c !! "kept".
Proof.
  cbn zeta.
  destruct (withProps_overwrites [("method", VStr "get")] VUndefined (VFun 0) 0
              (new_context [("method", VStr "old"); ("kept", VNum 1)]) []
              (or_introl eq_refl)) as (c' & Hrun & _ & Hf).
  - by_decision.
  - exists c'. split; [exact Hrun|]. split.
    + apply (proj1 (Hf "method")). apply elem_of_cons. left. reflexivity.
    + apply (proj2 (Hf "kept")). by_decision.
Defined.

Lemma withProps_arguments_accessor_throws_witness :
  let c := Ctx ∅ (Some (Accessor ["x"] false)) in
  args_getter c <> None
  /\ exists msg,
       withProps [("arguments", VNull)] VUndefined (VFun 0) 0 c []
       = (Throw (TypeError msg), []).
Proof.
  cbn zeta. split; [discriminate|].
  apply (withProps_arguments_accessor_throws [("arguments", VNull)] VUndefined
           (VFun 0) 0 (Ctx ∅ (Some (Accessor ["x"] false))) []).
  - discriminate.
  - apply elem_of_cons. left. reflexivity.
Defined.

Lemma withDefaults_idempotent_witness :
  readable empty_context
  /\ exists c' h' h'',
       withDefaults [("count", VNum 3)] VUndefined (VFun 0) 0 empty_context []
       = (Ok c', h')
       /\ withDefaults [("count", VNum 3)] VUndefined (VFun 0) 0 c' h' = (Ok c', h'').
Proof.
  split; [exact readable_empty_context|].
  exact (withDefaults_idempotent [("count", VNum 3)] VUndefined (VFun 0) 0
           empty_context [] readable_empty_context).
Defined.

Lemma withProps_then_withDefaults_witness :
  readable empty_context
  /\ exists c1 c2 h2,
       withProps [("count", VNum 5)] VUndefined (VFun 0) 0 empty_context []
       = (Ok c1, [])
       /\ withDefaults [("count", VNum 3)] VUndefined (VFun 0) 0 c1 [] = (Ok c2, h2)
       /\ fields c2 !! "count" = Some (VNum 5).
Proof.
  split; [exact readable_empty_context|].
  destruct (withProps_then_withDefaults [("count", VNum 5)] [("count", VNum 3)]
              VUndefined (VFun 0) 0 empty_context [] readable_empty_context
              (or_introl eq_refl)) as (c1 & c2 & h2 & H1 & H2 & Hf).
  - by_decision.
  - exists c1, c2, h2. split; [exact H1|]. split; [exact H2|].
    apply (Hf "count"); [apply elem_of_cons; left; reflexivity | reflexivity].
Defined.

Lemma withParams_then_withDefaults_witness :
  let h := [Array false [VNum 1]] in
  NoDup ["id"; "mark"]
  /\ exists c1 c2 h2,
       withParams ["id"; "mark"] VUndefined (VFun 0) 0 empty_context h = (Ok c1, h)
       /\ withDefaults [("mark", VStr "!")] VUndefined (VFun 0) 0 c1 h = (Ok c2, h2)
       /\ field "id" c2 = VNum 1
       /\ field "mark" c2 = VStr "!".
Proof.
  cbn zeta.
  assert (Hnd : NoDup ["id"; "mark"]) by by_decision.
  split; [exact Hnd|].
  destruct (withParams_then_withDefaults ["id"; "mark"] [("mark", VStr "!")]
              VUndefined (VFun 0) 0 empty_context [Array false [VNum 1]] eq_refl)
    as (c1 & c2 & h2 & H1 & H2 & Hfield & _).
  - discriminate.
  - exact Hnd.
  - by_decision.
  - by_decision.
  - by_decision.
  - exists c1, c2, h2. split; [exact H1|]. split; [exact H2|].
    split; [exact (Hfield 0 "id" eq_refl) | exact (Hfield 1 "mark" eq_refl)].
Defined.

Lemma objectHooks_wraps_named_methods_witness :
  let obj := Object (<["sayHi" := VFun 1]> {["version" := VNum 2]}) (Root None) in
  let hooks : HookMap := [("sayHi", MiddlewareArray [])] in
  let wrap : value -> HookSettings -> value := fun _ _ => VFun 9 in
  all_functions hooks obj
  /\ exists result,
       objectHooks wrap (OfObject obj) (HookMapping hooks) = Ok result
       /\ props result !! "sayHi" = Some (VFun 9)
       /\ props result !! "version" = Some (VNum 2).
Proof.
  cbn zeta.
  assert (Hfn : all_functions [("sayHi", MiddlewareArray [])]
                  (Object (<["sayHi" := VFun 1]> {["version" := VNum 2]}) (Root None))).
  { intros method Hm. apply elem_of_cons in Hm as [->|Hm]; [reflexivity|].
    exfalso. exact (not_elem_of_nil _ Hm). }
  split; [exact Hfn|].
  destruct (objectHooks_wraps_named_methods (fun _ _ => VFun 9)
              (OfObject (Object (<["sayHi" := VFun 1]> {["version" := VNum 2]}) (Root None)))
              [("sayHi", MiddlewareArray [])]) as (result & Hrun & _ & Hout & Hin).
  - by_decision.
  - exact Hfn.
  - exists result. split; [exact Hrun|]. split.
    + apply (Hin "sayHi" (MiddlewareArray []));
        [apply elem_of_cons; left; reflexivity | reflexivity].
    + rewrite Hout by by_decision. reflexivity.
Defined.

Lemma objectHooks_reports_first_non_function_witness :
  let obj := Object (<["a" := VFun 1]> {["b" := VNum 2]}) (Root None) in
  all_functions [("a", MiddlewareArray [])] obj
  /\ objectHooks (fun fn _ => fn) (OfObject obj)
       (HookMapping ([("a", MiddlewareArray [])]
                     ++ ("b", MiddlewareArray []) :: [("c", MiddlewareArray [])]))
     = Throw (Error "Can not apply hooks. 'b' is not a function").
Proof.
  cbn zeta.
  assert (Hfn : all_functions [("a", MiddlewareArray [])]
                  (Object (<["a" := VFun 1]> {["b" := VNum 2]}) (Root None))).
  { intros method Hm. apply elem_of_cons in Hm as [->|Hm]; [reflexivity|].
    exfalso. exact (not_elem_of_nil _ Hm). }
  split; [exact Hfn|].
  apply (objectHooks_reports_first_non_function (fun fn _ => fn)
           (OfObject (Object (<["a" := VFun 1]> {["b" := VNum 2]}) (Root None)))
           [("a", MiddlewareArray [])] [("c", MiddlewareArray [])]
           "b" (MiddlewareArray [])).
  - by_decision.
  - exact Hfn.
  - reflexivity.
Defined.
